(** * Carrefour promo watcher: an embedding of the promotion-discovery pipeline

    Sources: [src/promo_watcher_headless.py] (the watcher) and the variant
    written out by the setup script [src/promo_watcher.py].

    Python strings are sequences of code points; they are modelled as
    [list Z].  The HTML parser (BeautifulSoup with [html.parser]) is an
    external library: its output is modelled as a document tree of
    elements and text nodes, on which the repository's code is embedded. *)

From Stdlib Require Import List ZArith String Ascii Bool Lia.
From Stdlib Require Import Sorting.Sorted.
Import ListNotations.
Open Scope Z_scope.
Set Warnings "-register-all".

(* ------------------------------------------------------------------ *)
(** ** Text *)

Definition text := list Z.

(** A Rocq (ASCII) string literal as a list of code points. *)
Definition str (s : string) : text :=
  map (fun a => Z.of_nat (nat_of_ascii a)) (list_ascii_of_string s).

Definition minus : Z := 45.             (* '-' *)
Definition unicode_minus : Z := 8722.   (* U+2212 *)
Definition percent : Z := 37.           (* '%' *)
Definition space : Z := 32.
Definition newline : Z := 10.

(** Python's [str.isspace], which is also what [\s] matches in a [str]
    pattern and what [str.split()] / [str.strip()] remove. *)
Definition is_space (c : Z) : bool :=
  ((9 <=? c) && (c <=? 13)) || ((28 <=? c) && (c <=? 31)) || (c =? 32)
  || (c =? 133) || (c =? 160) || (c =? 5760)
  || ((8192 <=? c) && (c <=? 8202)) || (c =? 8232) || (c =? 8233)
  || (c =? 8239) || (c =? 8287) || (c =? 12288).

(** [\d]: the ASCII decimal digits (Python's [\d] also accepts the other
    Unicode decimal digits; they are not modelled). *)
Definition is_digit (c : Z) : bool := (48 <=? c) && (c <=? 57).

Fixpoint lstrip (s : text) : text :=
  match s with
  | c :: r => if is_space c then lstrip r else s
  | [] => []
  end.

(** [str.strip()] *)
Definition strip (s : text) : text := rev (lstrip (rev (lstrip s))).

(** [str.split()] with no argument: maximal runs of non-whitespace. *)
Fixpoint split_aux (cur : text) (s : text) : list text :=
  match s with
  | [] => match cur with [] => [] | _ => [rev cur] end
  | c :: r =>
      if is_space c then
        match cur with
        | [] => split_aux [] r
        | _ => rev cur :: split_aux [] r
        end
      else split_aux (c :: cur) r
  end.

Definition split_ws (s : text) : list text := split_aux [] s.

(** [sep.join(l)] *)
Fixpoint join (sep : text) (l : list text) : text :=
  match l with
  | [] => []
  | [x] => x
  | x :: r => x ++ sep ++ join sep r
  end.

Definition nonempty (s : text) : bool :=
  match s with [] => false | _ => true end.

(* ------------------------------------------------------------------ *)
(** ** [PCT_RE = re.compile(r"(-?\d{1,3})\s?%")]

    A backtracking matcher for this one pattern, tried in the order of
    Python's [re]: the optional '-' is first taken, then left out; the
    digit repeat is greedy (at most 3) and gives digits back one by one;
    [\s?] first takes one whitespace, then none. *)

(** Number of leading digits of [s], at most [n]. *)
Fixpoint digit_prefix (n : nat) (s : text) : nat :=
  match n, s with
  | S n', c :: r => if is_digit c then S (digit_prefix n' r) else O
  | _, _ => O
  end.

(** [\s?%] at the head of [s]: the length it consumes. *)
Definition pct_tail (s : text) : option nat :=
  let with_space :=
    match s with
    | c :: d :: _ => if is_space c && (d =? percent) then Some 2%nat else None
    | _ => None
    end in
  match with_space with
  | Some n => Some n
  | None =>
      match s with
      | c :: _ => if c =? percent then Some 1%nat else None
      | [] => None
      end
  end.

(** [\d{k}] for k = [k], k-1, ..., 1 followed by [\s?%]. *)
Fixpoint try_digits (k : nat) (s : text) : option (nat * nat) :=
  match k with
  | O => None
  | S k' =>
      match pct_tail (skipn k s) with
      | Some t => Some (k, t)
      | None => try_digits k' s
      end
  end.

(** [\d{1,3}\s?%]: the digits matched and the total length. *)
Definition match_body (s : text) : option (text * nat) :=
  match try_digits (digit_prefix 3 s) s with
  | Some (k, t) => Some (firstn k s, (k + t)%nat)
  | None => None
  end.

(** The whole pattern anchored at the head of [s]: group 1 and the length
    of the match. *)
Definition match_at (s : text) : option (text * nat) :=
  match s with
  | c :: r =>
      if c =? minus then
        match match_body r with
        | Some (g, n) => Some (c :: g, S n)
        | None => match_body s
        end
      else match_body s
  | [] => None
  end.

(** [PCT_RE.finditer(s)], group 1 of each match; [skip] is the number of
    characters still covered by the previous match. *)
Fixpoint finditer (skip : nat) (s : text) : list text :=
  match s with
  | [] => []
  | c :: r =>
      match skip with
      | S k => finditer k r
      | O =>
          match match_at s with
          | Some (g, n) => g :: finditer (n - 1)%nat r
          | None => finditer O r
          end
      end
  end.

(** [PCT_RE.search(s) is not None] *)
Fixpoint search (s : text) : bool :=
  match s with
  | [] => false
  | _ :: r => match match_at s with Some _ => true | None => search r end
  end.

(** [s.replace("−", "-")] *)
Definition replace_minus (s : text) : text :=
  map (fun c => if c =? unicode_minus then minus else c) s.

Fixpoint digits_value (acc : Z) (s : text) : option Z :=
  match s with
  | [] => Some acc
  | c :: r => if is_digit c then digits_value (acc * 10 + (c - 48)) r else None
  end.

(** [int(s)] on the strings group 1 can hold (an optional '-' and
    digits); [None] is a [ValueError]. *)
Definition py_int (s : text) : option Z :=
  match s with
  | [] => None
  | c :: r =>
      if c =? minus then
        match r with
        | [] => None
        | _ => option_map Z.opp (digits_value 0 r)
        end
      else digits_value 0 s
  end.

(** The [found] loop: [try: val = int(...); found.append(val) except
    ValueError: continue]. *)
Fixpoint collect (gs : list text) : list Z :=
  match gs with
  | [] => []
  | g :: r =>
      match py_int (replace_minus g) with
      | Some v => v :: collect r
      | None => collect r
      end
  end.

(** [abs(v) >= 50] *)
Definition qualifies (v : Z) : bool := 50 <=? Z.abs v.

(** Insertion into a list kept strictly decreasing, dropping a value
    already present. *)
Fixpoint insert_desc (x : Z) (l : list Z) : list Z :=
  match l with
  | [] => [x]
  | y :: r => if x =? y then l else if y <? x then x :: l else y :: insert_desc x r
  end.

(** [sorted(set(l), reverse=True)] *)
Definition sorted_set_desc (l : list Z) : list Z := fold_right insert_desc [] l.

(* ------------------------------------------------------------------ *)
(** ** The parsed document

    What BeautifulSoup hands to the code: a forest of elements (tag name
    lower-cased by [html.parser], attributes in source order) and text
    nodes, in document order. *)

Inductive node : Type :=
| NText (s : text)
| NElem (name : text) (attrs : list (text * text)) (kids : list node).

Definition document := list node.

Fixpoint text_eqb (a b : text) : bool :=
  match a, b with
  | [], [] => true
  | x :: a', y :: b' => (x =? y) && text_eqb a' b'
  | _, _ => false
  end.

(** The text nodes under a node, in document order. *)
Fixpoint node_strings (n : node) : list text :=
  match n with
  | NText s => [s]
  | NElem _ _ ks => flat_map node_strings ks
  end.

(** [soup.find_all(string=True)] *)
Definition doc_strings (d : document) : list text := flat_map node_strings d.

(** An attribute's value; with a repeated attribute the last one wins
    (BeautifulSoup's default [on_duplicate_attribute]). *)
Definition attr_get (k : text) (attrs : list (text * text)) : option text :=
  fold_left (fun acc kv => if text_eqb k (fst kv) then Some (snd kv) else acc)
            attrs None.

Fixpoint is_prefix (p s : text) : bool :=
  match p, s with
  | [], _ => true
  | x :: p', y :: s' => (x =? y) && is_prefix p' s'
  | _, [] => false
  end.

Fixpoint contains (p s : text) : bool :=
  is_prefix p s || match s with [] => false | _ :: s' => contains p s' end.

(** [[attr*='v']] *)
Definition attr_contains (k v : text) (attrs : list (text * text)) : bool :=
  match attr_get k attrs with Some a => contains v a | None => false end.

(** The watcher's card selector:
    [[class*='card'], [class*='Card'], article, li, [data-testid*='card']]. *)
Definition is_card (n : node) : bool :=
  match n with
  | NElem name attrs _ =>
      attr_contains (str "class") (str "card") attrs
      || attr_contains (str "class") (str "Card") attrs
      || text_eqb name (str "article") || text_eqb name (str "li")
      || attr_contains (str "data-testid") (str "card") attrs
  | NText _ => false
  end.

(** The setup-script variant's selector:
    [[class*='card'], [class*='Card'], article, li]. *)
Definition is_card_setup (n : node) : bool :=
  match n with
  | NElem name attrs _ =>
      attr_contains (str "class") (str "card") attrs
      || attr_contains (str "class") (str "Card") attrs
      || text_eqb name (str "article") || text_eqb name (str "li")
  | NText _ => false
  end.

(** [select] for a selector list: every matching element, in document
    order (an element before its descendants). *)
Fixpoint select_node (sel : node -> bool) (n : node) : list node :=
  match n with
  | NText _ => []
  | NElem _ _ ks => (if sel n then [n] else []) ++ flat_map (select_node sel) ks
  end.

Definition select (sel : node -> bool) (d : document) : list node :=
  flat_map (select_node sel) d.

(** [card.get_text(separator=" ", strip=True)] *)
Definition get_text (n : node) : text :=
  join [space] (filter nonempty (map strip (node_strings n))).

(** [" ".join(card.get_text(...).split())] *)
Definition snippet_of (n : node) : text := join [space] (split_ws (get_text n)).

(** [full_text = " \n".join(t.strip() for t in find_all(string=True) if t.strip())] *)
Definition full_text (d : document) : text :=
  join [space; newline] (filter nonempty (map strip (doc_strings d))).

(** The [cards] loop. *)
Fixpoint card_loop (cs : list node) : list text :=
  match cs with
  | [] => []
  | c :: r =>
      let snippet := snippet_of c in
      if search snippet then firstn 220 snippet :: card_loop r else card_loop r
  end.

Record extraction := { hits : list Z; cards : list text }.

(** [extract_promos(html)], for the document the parser produced and the
    variant's card selector. *)
Definition extract_promos_with (sel : node -> bool) (d : document) : extraction :=
  let found := collect (finditer 0 (full_text d)) in
  let hs := filter qualifies found in
  {| hits := sorted_set_desc hs;
     cards := firstn 5 (card_loop (select sel d)) |}.

(** [extract_promos] of [promo_watcher_headless.py]. *)
Definition extract_promos (d : document) : extraction := extract_promos_with is_card d.

(** [extract_promos] of the setup-script variant [promo_watcher.py]. *)
Definition extract_promos_setup (d : document) : extraction :=
  extract_promos_with is_card_setup d.

(** The values of the percentage tokens of a text, before the threshold. *)
Definition found_values (s : text) : list Z := collect (finditer 0 s).

(** [extract_promos(html)] with its first line: [BeautifulSoup(html,
    "html.parser")] is [parse], which gives the document or raises (as
    [html.parser] does on markup such as ["<![UNKNOWN[]]>"]). *)
Definition extract_html {exn} (sel : node -> bool) (parse : text -> document + exn)
  (html : text) : extraction + exn :=
  match parse html with
  | inl d => inl (extract_promos_with sel d)
  | inr e => inr e
  end.


(* ------------------------------------------------------------------ *)
(** ** Decimal rendering ([str] of an int) and [%H:%M] *)

Fixpoint dec_aux (fuel : nat) (n : Z) (acc : text) : text :=
  match fuel with
  | O => (48 + n) :: acc
  | S f => if n <? 10 then (48 + n) :: acc else dec_aux f (n / 10) ((48 + n mod 10) :: acc)
  end.

(** [str(n)] for [n >= 0]. *)
Definition dec (n : Z) : text := dec_aux (Z.to_nat (Z.log2 n)) n [].

(** [str(n)] for any int. *)
Definition py_str_int (n : Z) : text := if n <? 0 then minus :: dec (- n) else dec n.

Record clock := { hour : Z; minute : Z }.

Definition pad2 (n : Z) : text := [48 + n / 10; 48 + n mod 10].

(** [f"{datetime.now():%H:%M}"] *)
Definition hh_mm (t : clock) : text := pad2 (hour t) ++ [58] ++ pad2 (minute t).

(* ------------------------------------------------------------------ *)
(** ** robots.txt: [urllib.robotparser.RobotFileParser] (CPython) *)

Section Robots.
Context {exn : Type}.

(** How [urlopen] of robots.txt ends: a body (whose parsed rules decide
    [can_fetch] for a user agent and a url), an [HTTPError] with its
    status code, or any other exception ([URLError], a timeout, a
    [UnicodeDecodeError] of the body, ...). *)
Inductive robots_fetch : Type :=
| RobotsBody (rules : text -> text -> bool)
| RobotsHTTPError (code : Z)
| RobotsRaise (e : exn).

Record robot_parser := {
  disallow_all : bool;
  allow_all : bool;
  last_checked : bool;
  entries : text -> text -> bool }.

Definition fresh_parser : robot_parser :=
  {| disallow_all := false; allow_all := false; last_checked := false;
     entries := fun _ _ => true |}.

(** [rp.read()]: [inr e] when it raises. *)
Definition rp_read (f : robots_fetch) : robot_parser + exn :=
  match f with
  | RobotsBody rules =>
      inl {| disallow_all := false; allow_all := false; last_checked := true;
             entries := rules |}
  | RobotsHTTPError code =>
      if (code =? 401) || (code =? 403) then
        inl {| disallow_all := true; allow_all := false; last_checked := false;
               entries := entries fresh_parser |}
      else if (400 <=? code) && (code <? 500) then
        inl {| disallow_all := false; allow_all := true; last_checked := false;
               entries := entries fresh_parser |}
      else inl fresh_parser
  | RobotsRaise e => inr e
  end.

(** [rp.can_fetch(useragent, url)] *)
Definition can_fetch (rp : robot_parser) (ua url : text) : bool :=
  if disallow_all rp then false
  else if allow_all rp then true
  else if negb (last_checked rp) then false
  else entries rp ua url.

(** [allowed_by_robots] of [promo_watcher_headless.py]; [skip] is
    [SKIP_ROBOTS]. *)
Definition allowed_by_robots (skip : bool) (f : robots_fetch) (ua url : text) : bool :=
  if skip then true
  else match rp_read f with
       | inl rp => can_fetch rp ua url
       | inr _ => true
       end.

(** [allowed_by_robots] of the setup-script variant. *)
Definition allowed_by_robots_setup (f : robots_fetch) (ua url : text) : bool :=
  match rp_read f with
  | inl rp => can_fetch rp ua url
  | inr _ => false
  end.

End Robots.

Arguments robots_fetch : clear implicits.

(* ------------------------------------------------------------------ *)
(** ** Page acquisition: [fetch_first_ok] of [promo_watcher_headless.py]

    The network is an oracle: for each url, what reading robots.txt gives
    during its compliance check, what [fetch_with_playwright] gives and
    what [fetch_requests] gives.  The run is recorded as a trace of the
    calls made, each with its outcome. *)

Section Acquisition.
Context {exn : Type}.

Inductive outcome : Type :=
| OK (html : text)
| KO (e : exn).

Record world := {
  robots_at : text -> robots_fetch exn;
  playwright_at : text -> outcome;
  requests_at : text -> outcome }.

Inductive event : Type :=
| EvRobots (url : text) (allowed : bool)
| EvPlaywright (url : text) (r : outcome)
| EvRequests (url : text) (r : outcome).

(** What [fetch_first_ok] raises when no url gave a page:
    [raise last_err or RuntimeError("Toutes les URL ont échoué")]. *)
Inductive failure : Type :=
| Raised (e : exn)
| AllUrlsFailed.

Variable skip_robots : bool.
Variable user_agent : text.
Variable w : world.

Definition allowed (url : text) : bool :=
  allowed_by_robots skip_robots (robots_at w url) user_agent url.

(** The [for url in PROMO_URLS] loop, with [last_err]. *)
Fixpoint fetch_loop (urls : list text) (last_err : option exn)
  : list event * ((text * text) + failure) :=
  match urls with
  | [] =>
      ([], inr (match last_err with Some e => Raised e | None => AllUrlsFailed end))
  | url :: rest =>
      if negb (allowed url) then
        let '(tr, res) := fetch_loop rest last_err in (EvRobots url false :: tr, res)
      else
        match playwright_at w url with
        | OK html => ([EvRobots url true; EvPlaywright url (OK html)], inl (url, html))
        | KO e =>
            match requests_at w url with
            | OK html =>
                ([EvRobots url true; EvPlaywright url (KO e); EvRequests url (OK html)],
                 inl (url, html))
            | KO e' =>
                let '(tr, res) := fetch_loop rest (Some e') in
                (EvRobots url true :: EvPlaywright url (KO e) :: EvRequests url (KO e') :: tr,
                 res)
            end
        end
  end.

(** [fetch_first_ok()] over a candidate list. *)
Definition fetch_first_ok (urls : list text) : list event * ((text * text) + failure) :=
  fetch_loop urls None.

(** Both strategies fail on [v], or the check refuses it. *)
Definition exhausted (v : text) : Prop :=
  allowed v = false
  \/ exists e1 e2, playwright_at w v = KO e1 /\ requests_at w v = KO e2.

Definition raised_of (le : option exn) : failure :=
  match le with Some e => Raised e | None => AllUrlsFailed end.

End Acquisition.

Arguments outcome : clear implicits.
Arguments world : clear implicits.
Arguments event : clear implicits.
Arguments failure : clear implicits.

(** Reading a trace. *)
Section Traces.
Context {exn : Type}.

(** The urls whose compliance check the trace shows, in order. *)
Fixpoint checked_urls (tr : list (event exn)) : list text :=
  match tr with
  | [] => []
  | EvRobots u _ :: r => u :: checked_urls r
  | _ :: r => checked_urls r
  end.

(** The error of the most recent failed fetch of the trace. *)
Fixpoint last_error (tr : list (event exn)) : option exn :=
  match tr with
  | [] => None
  | e :: r =>
      match last_error r with
      | Some x => Some x
      | None =>
          match e with
          | EvPlaywright _ (KO x) | EvRequests _ (KO x) => Some x
          | _ => None
          end
      end
  end.

(** A candidate's compliance check may come first, after a candidate
    skipped by the check, or after a failed static fetch. *)
Definition gate_ready (prev : option (event exn)) : Prop :=
  match prev with
  | None => True
  | Some (EvRobots _ false) => True
  | Some (EvRequests _ (KO _)) => True
  | Some _ => False
  end.

(** The browser fetch of a url comes right after the check allowing it;
    the static fetch right after the failed browser fetch of that url. *)
Definition may_follow (prev : option (event exn)) (e : event exn) : Prop :=
  match e with
  | EvRobots _ _ => gate_ready prev
  | EvPlaywright u _ => prev = Some (EvRobots u true)
  | EvRequests u _ => exists x, prev = Some (EvPlaywright u (KO x))
  end.

Fixpoint well_sequenced (prev : option (event exn)) (tr : list (event exn)) : Prop :=
  match tr with
  | [] => True
  | e :: r => may_follow prev e /\ well_sequenced (Some e) r
  end.

(** The event is a fetch (either strategy) of [u]. *)
Definition is_fetch_of (u : text) (e : event exn) : Prop :=
  match e with
  | EvPlaywright u' _ | EvRequests u' _ => u' = u
  | EvRobots _ _ => False
  end.

End Traces.

Definition PROMO_URLS : list text :=
  [str "https://www.carrefour.fr/promotions"; str "https://www.carrefour.fr/evenements/soldes"].

Definition USER_AGENT : text :=
  str "Mozilla/5.0 (Windows NT 10.0; Win64; x64) AppleWebKit/537.36 (KHTML, like Gecko) Chrome/120.0.0.0 Safari/537.36".

(* ------------------------------------------------------------------ *)
(** ** Messages and [job_once] *)

Definition e_acute : Z := 233.
Definition ge_sign : Z := 8805.    (* '≥' *)
Definition bullet : Z := 8226.     (* '•' *)

(** [" remise(s) ≥ 50%"] *)
Definition remises_ge_50 : text := str " remise(s) " ++ [ge_sign] ++ str " 50%".

(** ["aucune remise ≥ 50% trouvée"] *)
Definition aucune_remise : text :=
  str "aucune remise " ++ [ge_sign] ++ str " 50% trouv" ++ [e_acute; 101].

(** [', '.join(str(abs(v))+'%' for v in hits[:5])] *)
Definition pct_list (hs : list Z) : text :=
  join (str ", ") (map (fun v => py_str_int (Z.abs v) ++ [percent]) (firstn 5 hs)).

(** [body = "\n• " + "\n• ".join(cards) if cards else ""] *)
Definition body_of (cs : list text) : text :=
  match cs with
  | [] => []
  | _ => [newline; bullet; space] ++ join [newline; bullet; space] cs
  end.

(** The watcher's alert: header, body and [Source : ...]. *)
Definition alert_msg (ex : extraction) (used_url : text) : text :=
  let header := [128722] ++ str " Carrefour : " ++ dec (Z.of_nat (List.length (hits ex)))
                ++ remises_ge_50 ++ str " (" ++ pct_list (hits ex) ++ str ")" in
  header ++ [newline] ++ body_of (cards ex) ++ [newline; newline] ++ str "Source : " ++ used_url.

(** The watcher's "nothing found" message. *)
Definition none_msg (now : clock) (used_url : text) : text :=
  [128336; space] ++ hh_mm now ++ [space; 8212; space] ++ aucune_remise
  ++ str " (source : " ++ used_url ++ str ").".

Section Jobs.
Context {exn : Type}.
(** [str(e)] of an exception. *)
Variable exn_str : exn -> text.

Definition failure_str (f : failure exn) : text :=
  match f with
  | Raised e => exn_str e
  | AllUrlsFailed => str "Toutes les URL ont " ++ [e_acute] ++ str "chou" ++ [e_acute]
  end.

(** [f"⚠️ Erreur de téléchargement des pages promos: {e}"] *)
Definition error_msg (f : failure exn) : text :=
  [9888; 65039] ++ str " Erreur de t" ++ [e_acute] ++ str "l" ++ [e_acute]
  ++ str "chargement des pages promos: " ++ failure_str f.

(** A call to [send_telegram(msg)]. *)
Inductive sink_event : Type := Send (msg : text).

(** [job_once()] of [promo_watcher_headless.py]: the trace of the
    acquisition and the messages handed to [send_telegram]. [parse] is
    BeautifulSoup, [now] is [datetime.now()]. *)
Definition job_once (skip_robots : bool) (w : world exn) (parse : text -> document)
  (now : clock) : list (event exn) * list sink_event :=
  let '(tr, res) := fetch_first_ok skip_robots USER_AGENT w PROMO_URLS in
  match res with
  | inr f => (tr, [Send (error_msg f)])
  | inl (used_url, html) =>
      let ex := extract_promos (parse html) in
      match hits ex with
      | _ :: _ => (tr, [Send (alert_msg ex used_url)])
      | [] => (tr, [Send (none_msg now used_url)])
      end
  end.

Definition PROMO_URL : text := str "https://www.carrefour.fr/promotions".
Definition USER_AGENT_setup : text := str "PromoWatcher/1.0 (+contact: you@example.com)".

(** The setup-script variant's alert ([Lien: PROMO_URL]). *)
Definition alert_msg_setup (ex : extraction) : text :=
  let header := [128293] ++ str " Carrefour: " ++ dec (Z.of_nat (List.length (hits ex)))
                ++ remises_ge_50 ++ str " (" ++ pct_list (hits ex) ++ str ")" in
  header ++ [newline] ++ body_of (cards ex) ++ [newline; newline] ++ str "Lien: " ++ PROMO_URL.

(** The setup-script variant's "nothing found" message. *)
Definition none_msg_setup (now : clock) : text :=
  [128339; space] ++ hh_mm now ++ [space; 8211; space] ++ aucune_remise ++ str ".".

(** [job_once()] of the setup-script variant: robots check, then
    [fetch_promotions()] (a GET of [PROMO_URL]). *)
Definition job_once_setup (w : world exn) (parse : text -> document) (now : clock)
  : list sink_event :=
  if negb (allowed_by_robots_setup (robots_at w PROMO_URL) USER_AGENT_setup PROMO_URL)
  then []
  else match requests_at w PROMO_URL with
       | KO _ => []
       | OK html =>
           let ex := extract_promos_setup (parse html) in
           match hits ex with
           | _ :: _ => [Send (alert_msg_setup ex)]
           | [] => [Send (none_msg_setup now)]
           end
       end.

(** [job_once()] of [promo_watcher_headless.py] with a parser that may
    raise: [extract_promos(html)] runs outside the [try], so its exception
    escapes [job_once] (the last component) before any message is sent. *)
Definition job_once_exn (skip_robots : bool) (w : world exn)
  (parse : text -> document + exn) (now : clock)
  : list (event exn) * list sink_event * option exn :=
  let '(tr, res) := fetch_first_ok skip_robots USER_AGENT w PROMO_URLS in
  match res with
  | inr f => (tr, [Send (error_msg f)], None)
  | inl (used_url, html) =>
      match extract_html is_card parse html with
      | inr e => (tr, [], Some e)
      | inl ex =>
          match hits ex with
          | _ :: _ => (tr, [Send (alert_msg ex used_url)], None)
          | [] => (tr, [Send (none_msg now used_url)], None)
          end
      end
  end.

(** [job_once()] of the setup-script variant with a parser that may
    raise; the last component is the exception that escapes. *)
Definition job_once_setup_exn (w : world exn) (parse : text -> document + exn) (now : clock)
  : list sink_event * option exn :=
  if negb (allowed_by_robots_setup (robots_at w PROMO_URL) USER_AGENT_setup PROMO_URL)
  then ([], None)
  else match requests_at w PROMO_URL with
       | KO _ => ([], None)
       | OK html =>
           match extract_html is_card_setup parse html with
           | inr e => ([], Some e)
           | inl ex =>
               match hits ex with
               | _ :: _ => ([Send (alert_msg_setup ex)], None)
               | [] => ([Send (none_msg_setup now)], None)
               end
           end
       end.

End Jobs.

(* ------------------------------------------------------------------ *)
(** ** [fetch_with_playwright(url)] of [promo_watcher_headless.py]

    Each awaited Playwright call is an operation; the browser is an
    oracle telling how each one ends (it completes, raises [PWTimeout] or
    raises another exception), and what [page.content()] returns.  The run
    is the list of operations performed, and a value or the exception that
    escapes. *)

Section Browser.
Context {exn : Type}.

Inductive pw_op : Type :=
| PwStart                          (* [async with async_playwright() as p] *)
| Launch                           (* [p.chromium.launch(...)] *)
| NewContext                       (* [browser.new_context(...)] *)
| InitScript                       (* [ctx.add_init_script(...)] *)
| NewPage                          (* [ctx.new_page()] *)
| Goto (url : text)                (* [page.goto(url, ...)] *)
| Click (sel : text) (timeout : Z) (* [page.locator(sel).first.click(timeout=...)] *)
| WaitIdle                         (* [page.wait_for_load_state("networkidle", ...)] *)
| Sleep                            (* [asyncio.sleep(2.0)] *)
| Content                          (* [page.content()] *)
| CloseCtx                         (* [ctx.close()] *)
| CloseBrowser                     (* [browser.close()] *)
| PwStop.                          (* leaving the [async with] *)

Inductive pw_exn : Type :=
| PWTimeout
| PWError (e : exn).

Record browser := {
  answer : pw_op -> option pw_exn;
  page_html : text }.

Definition PW (A : Type) : Type := list pw_op -> list pw_op * (A + pw_exn).

Definition pw_ret {A} (a : A) : PW A := fun tr => (tr, inl a).

Definition pw_bind {A B} (m : PW A) (k : A -> PW B) : PW B :=
  fun tr =>
    let '(tr1, r) := m tr in
    match r with
    | inl a => k a tr1
    | inr e => (tr1, inr e)
    end.

Local Notation "m ;; k" := (pw_bind m (fun _ => k)) (at level 61, right associativity).

Definition pw_call (b : browser) (o : pw_op) : PW unit :=
  fun tr => (tr ++ [o], match answer b o with None => inl tt | Some e => inr e end).

(** [try: m finally: fin] (and [async with], whose exit runs on every
    path): an exception of [fin] replaces the outcome of [m]. *)
Definition pw_finally {A} (m : PW A) (fin : PW unit) : PW A :=
  fun tr =>
    let '(tr1, r) := m tr in
    let '(tr2, rf) := fin tr1 in
    (tr2, match rf with inl _ => r | inr e => inr e end).

(** [for sel in sels: try: click; break / except PWTimeout: pass] *)
Fixpoint click_first (b : browser) (sels : list text) (timeout : Z) : PW unit :=
  match sels with
  | [] => pw_ret tt
  | sel :: rest =>
      fun tr =>
        let '(tr1, r) := pw_call b (Click sel timeout) tr in
        match r with
        | inl _ => (tr1, inl tt)
        | inr PWTimeout => click_first b rest timeout tr1
        | inr e => (tr1, inr e)
        end
  end.

Definition consent_selectors : list text :=
  [str "button:has-text('Accepter')"; str "button:has-text('Tout accepter')";
   str "button:has-text('J'accepte')"].

Definition close_selectors : list text :=
  [str "button[aria-label='Fermer']"; str "button:has-text('Fermer')"].

Definition fetch_with_playwright (b : browser) (url : text) : PW text :=
  pw_call b PwStart ;;
  pw_finally
    (pw_call b Launch ;; pw_call b NewContext ;; pw_call b InitScript ;;
     pw_call b NewPage ;;
     pw_finally
       (pw_call b (Goto url) ;;
        click_first b consent_selectors 2000 ;;
        click_first b close_selectors 1500 ;;
        pw_call b WaitIdle ;; pw_call b Sleep ;; pw_call b Content ;;
        pw_ret (page_html b))
       (pw_call b CloseCtx ;; pw_call b CloseBrowser))
    (pw_call b PwStop).

End Browser.

Arguments pw_exn : clear implicits.
Arguments browser : clear implicits.

(* ------------------------------------------------------------------ *)
(** ** [send_telegram] and [/now] (both variants) *)

Record payload := {
  chat_id : text;
  msg_text : text;
  disable_web_page_preview : bool }.

(** A call of [requests.post(url, json=payload, timeout=15)]. *)
Inductive api_call : Type := Post (url : text) (p : payload).

(** [send_telegram(msg)]: nothing without both settings (Python's
    [TELEGRAM_BOT_TOKEN and TELEGRAM_CHAT_ID]); the failure of the post is
    caught and logged, so only the attempt is observable. *)
Definition send_telegram (token chat : text) (msg : text) : list api_call :=
  if negb (nonempty token && nonempty chat) then []
  else [Post (str "https://api.telegram.org/bot" ++ token ++ str "/sendMessage")
             {| chat_id := chat; msg_text := msg; disable_web_page_preview := true |}].

(** The posts of a run that called [send_telegram] with these messages. *)
Definition sent_posts (token chat : text) (sinks : list sink_event) : list api_call :=
  flat_map (fun ev => match ev with Send m => send_telegram token chat m end) sinks.

(** A call of the bot: [context.bot.send_message(...)] or a post of
    [send_telegram]. *)
Inductive bot_call : Type :=
| BotSend (chat : Z) (msg : text)
| BotApi (c : api_call).

(** ["🔎 Vérification en cours…"] *)
Definition ack_now : text :=
  [128270; space] ++ str "V" ++ [e_acute] ++ str "rification en cours" ++ [8230].

(** ["🔎 Vérification manuelle lancée…"] *)
Definition ack_now_setup : text :=
  [128270; space] ++ str "V" ++ [e_acute] ++ str "rification manuelle lanc" ++ [e_acute]
  ++ str "e" ++ [8230].

(** [telegram_now] of [promo_watcher_headless.py]: the acknowledgement to
    the chat the command came from, then [job_once()] unless
    [send_message] raised ([ack_ok = false]). *)
Definition telegram_now {exn} (exn_str : exn -> text) (skip_robots : bool) (w : world exn)
  (parse : text -> document) (now : clock) (token chat : text)
  (effective_chat : Z) (ack_ok : bool) : list bot_call :=
  BotSend effective_chat ack_now
  :: (if ack_ok
      then map BotApi (sent_posts token chat (snd (job_once exn_str skip_robots w parse now)))
      else []).

(** [telegram_now] of the setup-script variant. *)
Definition telegram_now_setup {exn} (w : world exn) (parse : text -> document) (now : clock)
  (token chat : text) (effective_chat : Z) (ack_ok : bool) : list bot_call :=
  BotSend effective_chat ack_now_setup
  :: (if ack_ok then map BotApi (sent_posts token chat (job_once_setup w parse now)) else []).

(* ------------------------------------------------------------------ *)
(** ** Predicates used in the statements *)

(** Induction on documents, with the children's hypotheses. *)
Fixpoint node_ind' (P : node -> Prop) (HT : forall s, P (NText s))
  (HE : forall nm a ks, Forall P ks -> P (NElem nm a ks)) (n : node) {struct n} : P n :=
  match n with
  | NText s => HT s
  | NElem nm a ks =>
      HE nm a ks
        ((fix go (ks : list node) : Forall P ks :=
            match ks with
            | [] => Forall_nil P
            | k :: r => Forall_cons k (node_ind' P HT HE k) (go r)
            end) ks)
  end.

(** Whitespace-collapsed text: every whitespace character is a plain space,
    none leads and no two are adjacent. *)
Fixpoint collapsed_aux (prev_space : bool) (t : text) : bool :=
  match t with
  | [] => true
  | c :: r =>
      if is_space c then (c =? space) && negb prev_space && collapsed_aux true r
      else collapsed_aux false r
  end.

Definition collapsed (t : text) : bool := collapsed_aux true t.

Definition no_space (t : text) : Prop := forall c, In c t -> is_space c = false.

(** A character no part of [PCT_RE] can start or end on. *)
Definition sep_char (c : Z) : Prop := is_digit c = false /\ c <> percent /\ c <> minus.

(** What follows a piece of a join: nothing, or a two-character separator
    of such characters ([" \n"] in [full_text], [", "] in the header). *)
Definition guarded (t : text) : Prop :=
  t = [] \/ exists x y r, t = x :: y :: r /\ sep_char x /\ sep_char y.

(** The shape of group 1 of a match: an optional '-' and 1 to 3 digits. *)
Definition token_shape (g : text) : Prop :=
  exists ds, (g = ds \/ g = minus :: ds)
             /\ (1 <= List.length ds <= 3)%nat
             /\ Forall (fun c => is_digit c = true) ds.

(** A click that completed or timed out. *)
Definition benign_click {exn} (b : browser exn) (o : pw_op) : Prop :=
  exists sel t, o = Click sel t /\ (answer b o = None \/ answer b o = Some PWTimeout).

(** Not one of the closing calls. *)
Definition not_closing (o : pw_op) : Prop :=
  o <> CloseCtx /\ o <> CloseBrowser /\ o <> PwStop.

(** [m] only appends operations satisfying [P] to the trace. *)
Definition appends_only {exn} (P : pw_op -> Prop) {A} (m : @PW exn A) : Prop :=
  forall tr, exists ext, fst (m tr) = tr ++ ext /\ Forall P ext.

(* ------------------------------------------------------------------ *)
(** ** Sample runs *)

(** robots.txt allows everything; both strategies give the sample page. *)
Definition sample_world_ok : world unit :=
  {| robots_at := fun _ => RobotsBody (fun _ _ => true);
     playwright_at := fun _ => OK (str "<li>Soldes -60%</li>");
     requests_at := fun _ => OK (str "<li>Soldes -60%</li>") |}.

(** robots.txt allows everything; every fetch fails. *)
Definition sample_world_down : world unit :=
  {| robots_at := fun _ => RobotsBody (fun _ _ => true);
     playwright_at := fun _ => KO tt;
     requests_at := fun _ => KO tt |}.

(** The parse of [<li>Soldes -60%</li>]. *)
Definition sample_parse (_ : text) : document :=
  [NElem (str "li") [] [NText (str "Soldes -60%")]].

(** The parse of [<p>Rien</p>]. *)
Definition sample_parse_none (_ : text) : document :=
  [NElem (str "p") [] [NText (str "Rien")]].

Definition sample_clock : clock := {| hour := 9; minute := 5 |}.

(** A page whose consent banner answers the second selector; every other
    click times out. *)
Definition sample_browser : browser unit :=
  {| answer := fun o =>
       match o with
       | Click sel _ =>
           if text_eqb sel (str "button:has-text('Tout accepter')") then None
           else Some PWTimeout
       | _ => None
       end;
     page_html := str "<li>Soldes -60%</li>" |}.

(** A browser whose [new_page] fails. *)
Definition sample_browser_no_page : browser unit :=
  {| answer := fun o => match o with NewPage => Some (PWError tt) | _ => None end;
     page_html := [] |}.

(* ================================================================== *)
(** * Properties *)


(** ** The hit list *)

Lemma insert_desc_In x y l : In x (insert_desc y l) <-> x = y \/ In x l.
Proof.
  induction l as [|a l IH]; simpl; [split; intuition congruence|].
  destruct (Z.eqb_spec y a) as [->|Hne]; [simpl; split; intuition congruence|].
  destruct (Z.ltb_spec a y); simpl; rewrite ?IH; split; intuition congruence.
Qed.

Lemma HdRel_insert_desc a y l :
  a > y -> HdRel Z.gt a l -> HdRel Z.gt a (insert_desc y l).
Proof.
  intros Hay Hd. destruct l as [|b l]; simpl; [constructor; lia|].
  inversion Hd; subst.
  destruct (y =? b); [constructor; lia|].
  destruct (b <? y); constructor; lia.
Qed.

Lemma insert_desc_sorted y l : Sorted Z.gt l -> Sorted Z.gt (insert_desc y l).
Proof.
  induction 1 as [|a l Hs IH Hd]; simpl; [repeat constructor|].
  destruct (Z.eqb_spec y a) as [->|Hne]; [constructor; auto|].
  destruct (Z.ltb_spec a y).
  - constructor; [constructor; auto|constructor; lia].
  - constructor; [exact IH|]. apply HdRel_insert_desc; [lia|exact Hd].
Qed.

Lemma sorted_set_desc_sorted l : Sorted Z.gt (sorted_set_desc l).
Proof.
  induction l as [|a l IH]; simpl; [constructor|]. now apply insert_desc_sorted.
Qed.

Lemma sorted_set_desc_In v l : In v (sorted_set_desc l) <-> In v l.
Proof.
  induction l as [|a l IH]; simpl; [tauto|]. rewrite insert_desc_In, IH. intuition.
Qed.

Lemma gt_strongly_sorted l : Sorted Z.gt l -> StronglySorted Z.gt l.
Proof. apply Sorted_StronglySorted. intros x y z; lia. Qed.

Lemma strongly_gt_NoDup l : StronglySorted Z.gt l -> NoDup l.
Proof.
  induction 1 as [|a l _ IH Hall]; constructor; auto.
  intro Hin. rewrite Forall_forall in Hall. specialize (Hall a Hin). lia.
Qed.

(** ** Texts, snippets and the document's strings *)

Lemma select_node_strings sel n :
  forall m, In m (select_node sel n) ->
  forall s, In s (node_strings m) -> In s (node_strings n).
Proof.
  induction n as [t|nm a ks IH] using node_ind'; simpl; [tauto|].
  intros m Hm s Hs. apply in_app_or in Hm as [Hm|Hm].
  - destruct (sel (NElem nm a ks)); simpl in Hm; [|contradiction].
    destruct Hm as [<-|[]]. exact Hs.
  - apply in_flat_map in Hm as [k [Hk Hm]].
    rewrite Forall_forall in IH.
    apply in_flat_map. exists k. split; [exact Hk|]. exact (IH k Hk m Hm s Hs).
Qed.

Lemma select_strings sel d :
  forall m, In m (select sel d) ->
  forall s, In s (node_strings m) -> In s (doc_strings d).
Proof.
  unfold select, doc_strings. intros m Hm s Hs.
  apply in_flat_map in Hm as [n [Hn Hm]].
  apply in_flat_map. exists n. split; [exact Hn|].
  exact (select_node_strings sel n m Hm s Hs).
Qed.

Lemma card_loop_map_filter cs :
  card_loop cs = map (fun n => firstn 220 (snippet_of n))
                     (filter (fun n => search (snippet_of n)) cs).
Proof.
  induction cs as [|c cs IH]; simpl; [reflexivity|].
  destruct (search (snippet_of c)); simpl; now rewrite IH.
Qed.


Lemma collapsed_aux_firstn k b t :
  collapsed_aux b t = true -> collapsed_aux b (firstn k t) = true.
Proof.
  revert k b. induction t as [|c t IH]; intros k b H; destruct k; simpl in *; auto.
  destruct (is_space c).
  - apply andb_true_iff in H as [H1 H2]. rewrite H1. simpl. auto.
  - auto.
Qed.


Lemma rev_cons_nonempty (x : Z) (l : text) : rev (x :: l) <> [].
Proof.
  intro E. apply (f_equal (@List.length Z)) in E.
  rewrite length_rev in E. simpl in E. discriminate.
Qed.

Lemma split_aux_pieces cur s :
  no_space cur ->
  forall p, In p (split_aux cur s) -> p <> [] /\ no_space p.
Proof.
  revert cur. induction s as [|c s IH]; intros cur Hcur p Hp; simpl in Hp.
  - destruct cur as [|x cur]; simpl in Hp; [contradiction|].
    destruct Hp as [<-|[]]. split.
    + apply rev_cons_nonempty.
    + intros y Hy. apply Hcur. apply in_rev. exact Hy.
  - destruct (is_space c) eqn:Hc.
    + destruct cur as [|x cur].
      * apply (IH []); [intros y []|exact Hp].
      * destruct Hp as [<-|Hp].
        -- split.
           ++ apply rev_cons_nonempty.
           ++ intros y Hy. apply Hcur. apply in_rev. exact Hy.
        -- apply (IH []); [intros y []|exact Hp].
    + apply (IH (c :: cur)); [|exact Hp].
      intros y [<-|Hy]; [exact Hc|apply Hcur, Hy].
Qed.

Lemma collapsed_aux_app_word b x r :
  x <> [] -> no_space x -> collapsed_aux b (x ++ r) = collapsed_aux false r.
Proof.
  revert b. induction x as [|c x IH]; intros b Hne Hx; [congruence|].
  simpl. rewrite (Hx c (or_introl eq_refl)).
  destruct x as [|c' x]; [reflexivity|].
  apply IH; [discriminate|]. intros y Hy. apply Hx. right. exact Hy.
Qed.

Lemma collapsed_join_words b l :
  (forall p, In p l -> p <> [] /\ no_space p) ->
  collapsed_aux b (join [space] l) = true.
Proof.
  revert b. induction l as [|x l IH]; intros b Hl; [reflexivity|].
  destruct (Hl x (or_introl eq_refl)) as [Hne Hx].
  destruct l as [|y l].
  - simpl. rewrite <- (app_nil_r x). rewrite collapsed_aux_app_word; auto.
  - change (join [space] (x :: y :: l)) with (x ++ [space] ++ join [space] (y :: l)).
    rewrite collapsed_aux_app_word; auto. simpl.
    apply IH. intros p Hp. apply Hl. right. exact Hp.
Qed.

Lemma snippet_collapsed n : collapsed (snippet_of n) = true.
Proof.
  unfold collapsed, snippet_of, split_ws. apply collapsed_join_words.
  apply split_aux_pieces. intros y [].
Qed.

Lemma collapsed_aux_no_newline b t : collapsed_aux b t = true -> ~ In newline t.
Proof.
  revert b. induction t as [|c t IH]; intros b H Hin; [exact Hin|].
  simpl in H. destruct Hin as [Hc|Hin].
  - subst c. cbv in H. discriminate.
  - destruct (is_space c).
    + apply andb_true_iff in H as [_ H]. exact (IH _ H Hin).
    + exact (IH _ H Hin).
Qed.

Lemma in_firstn_in {A} n (x : A) l : In x (firstn n l) -> In x l.
Proof.
  intro H. rewrite <- (firstn_skipn n l). apply in_or_app. left. exact H.
Qed.

Lemma filter_all_false {A} (f : A -> bool) l :
  (forall x, In x l -> f x = false) -> filter f l = [].
Proof.
  induction l as [|a l IH]; intro H; simpl; [reflexivity|].
  rewrite (H a (or_introl eq_refl)). apply IH. intros x Hx. apply H. right. exact Hx.
Qed.

(** ** Claims about [extract_promos] *)

(** C1 (amended). The hit list of [extract_promos] (either variant) is
    [sorted(set(hits), reverse=True)] over the signed token values: strictly
    decreasing by signed value, so free of duplicates, and holding exactly
    the token values whose absolute value is at least 50.  In particular
    ["52% 99% 60%"] gives [[99; 60; 52]] and ["-55% -55% 30%"] gives the single
    value [-55]. *)
Theorem extract_hits_distinct_desc (sel : node -> bool) (d : document) :
  let hs := hits (extract_promos_with sel d) in
  StronglySorted Z.gt hs /\ NoDup hs
  /\ (forall v, In v hs <-> In v (found_values (full_text d)) /\ 50 <= Z.abs v)
  /\ hits (extract_promos [NText (str "52% 99% 60%")]) = [99; 60; 52]
  /\ hits (extract_promos [NText (str "-55% -55% 30%")]) = [-55].
Proof.
  simpl. assert (Hs : StronglySorted Z.gt
    (sorted_set_desc (filter qualifies (collect (finditer 0 (full_text d)))))).
  { apply gt_strongly_sorted, sorted_set_desc_sorted. }
  split; [exact Hs|]. split; [now apply strongly_gt_NoDup|].
  split; [|split; reflexivity].
  intro v. rewrite sorted_set_desc_In, filter_In. unfold qualifies, found_values.
  rewrite Z.leb_le. tauto.
Qed.

(** C1 refuted: on ["-55% 55% -70%"] the hit list is [[55; -55; -70]], which
    repeats the magnitude 55 and is not in descending magnitude order. *)
Lemma extract_hits_signed_counterexample :
  let hs := hits (extract_promos [NText (str "-55% 55% -70%")]) in
  hs = [55; -55; -70] /\ ~ NoDup (map Z.abs hs) /\ ~ Sorted Z.ge (map Z.abs hs).
Proof.
  assert (E : hits (extract_promos [NText (str "-55% 55% -70%")]) = [55; -55; -70])
    by reflexivity.
  cbv zeta. rewrite E. split; [reflexivity|]. simpl. split.
  - intro H. inversion H as [|x l Hx Hl]. apply Hx. left. reflexivity.
  - intro H. inversion H as [|a l Hl Hd]; subst.
    inversion Hl as [|a' l' Hl' Hd']; subst. inversion Hd'; subst. lia.
Qed.

(** A document without any text gives no hit and no snippet. *)
Lemma extract_empty_of_no_text (sel : node -> bool) (d : document)
  (Hd : doc_strings d = []) :
  extract_promos_with sel d = {| hits := []; cards := [] |}.
Proof.
  unfold extract_promos_with, full_text. rewrite Hd. simpl. f_equal.
  rewrite card_loop_map_filter.
  rewrite filter_all_false; [reflexivity|].
  intros m Hm.
  assert (Hs : node_strings m = []).
  { destruct (node_strings m) as [|t ts] eqn:E; [reflexivity|].
    pose proof (select_strings sel d m Hm t) as Ht. rewrite Hd in Ht.
    exfalso. apply Ht. rewrite E. left. reflexivity. }
  unfold snippet_of, get_text. rewrite Hs. reflexivity.
Qed.

(** C2 refuted: the text ["Soldes -70%"] without any markup, which the
    parser turns into a single text node, is not answered with empty
    results: its hit list is [[-70]]. *)
Lemma extract_plain_text_counterexample :
  extract_promos [NText (str "Soldes -70%")] = {| hits := [-70]; cards := [] |}.
Proof. reflexivity. Qed.

(** C6 (code bug). The token pattern has no Unicode minus: on the text
    "−55%" (U+2212, '5', '5', '%') the match is "55" alone, so the value
    parsed is 55, not -55, and the [replace("−", "-")] never applies. *)
Theorem unicode_minus_parsed_positive :
  found_values [unicode_minus; 53; 53; percent] = [55]
  /\ finditer 0 [unicode_minus; 53; 53; percent] = [[53; 53]]
  /\ hits (extract_promos [NText [unicode_minus; 53; 53; percent]]) = [55].
Proof. repeat split; reflexivity. Qed.

(** C7. The snippet list of [extract_promos] (either variant) holds at most
    5 snippets; each is at most 220 characters, whitespace-collapsed, and
    the first 220 characters of the normalized text of a selected
    card-like element whose normalized text contains a percentage token;
    they are those of the first such elements in document order, so with
    5 or more such elements there are exactly 5. *)
Theorem extract_cards_first_five (sel : node -> bool) (d : document) :
  let cs := cards (extract_promos_with sel d) in
  let q := filter (fun n => search (snippet_of n)) (select sel d) in
  cs = map (fun n => firstn 220 (snippet_of n)) (firstn 5 q)
  /\ (List.length cs <= 5)%nat
  /\ (forall c, In c cs ->
        (List.length c <= 220)%nat /\ collapsed c = true
        /\ exists n, In n (select sel d) /\ search (snippet_of n) = true
                     /\ c = firstn 220 (snippet_of n))
  /\ ((5 <= List.length q)%nat -> List.length cs = 5%nat).
Proof.
  cbv zeta.
  assert (E : cards (extract_promos_with sel d)
              = map (fun n => firstn 220 (snippet_of n))
                    (firstn 5 (filter (fun n => search (snippet_of n)) (select sel d)))).
  { unfold extract_promos_with. cbn [cards]. now rewrite card_loop_map_filter, firstn_map. }
  rewrite E. split; [reflexivity|]. split; [|split].
  - rewrite length_map. apply firstn_le_length.
  - intros c Hc. apply in_map_iff in Hc as [n [<- Hn]].
    apply in_firstn_in, filter_In in Hn as [Hsel Hsearch].
    split; [apply firstn_le_length|]. split.
    + apply collapsed_aux_firstn, snippet_collapsed.
    + exists n. auto.
  - intro H5. rewrite length_map, length_firstn. lia.
Qed.

(** C10. The token pattern has no left boundary: in ["1234%"] the match is
    the trailing "234", a qualifying hit that is no number of the text. *)
Theorem extract_long_digit_run_tail :
  full_text [NText (str "1234%")] = str "1234%"
  /\ finditer 0 (str "1234%") = [str "234"]
  /\ hits (extract_promos [NText (str "1234%")]) = [234].
Proof. repeat split; reflexivity. Qed.

(** ** [fetch_first_ok] *)

Section FetchProofs.
Context {exn : Type}.
Variable skip : bool.
Variable ua : text.
Variable w : world exn.

Local Abbreviation allowed_ := (allowed skip ua w).
Local Abbreviation loop := (fetch_loop skip ua w).
Local Abbreviation exhausted := (exhausted skip ua w).


Ltac loop_step u :=
  simpl; destruct (allowed_ u) eqn:Ha; simpl;
  [destruct (playwright_at w u) as [hp|ep] eqn:Hp;
   [|destruct (requests_at w u) as [hr|er] eqn:Hr]|].

Lemma loop_checked_prefix urls le :
  exists k, checked_urls (fst (loop urls le)) = firstn k urls.
Proof.
  revert le. induction urls as [|u urls IH]; intro le.
  - exists O. reflexivity.
  - loop_step u.
    + exists 1%nat. reflexivity.
    + exists 1%nat. reflexivity.
    + destruct (IH (Some er)) as [k Hk].
      destruct (loop urls (Some er)) as [tr res]. simpl in *.
      exists (S k). now rewrite Hk.
    + destruct (IH le) as [k Hk].
      destruct (loop urls le) as [tr res]. simpl in *.
      exists (S k). now rewrite Hk.
Qed.

Lemma loop_well_sequenced urls le prev :
  gate_ready prev -> well_sequenced prev (fst (loop urls le)).
Proof.
  revert le prev. induction urls as [|u urls IH]; intros le prev Hg; [exact I|].
  loop_step u.
  - simpl. repeat split; auto.
  - simpl. repeat split; eauto.
  - specialize (IH (Some er) (Some (EvRequests u (KO er))) I).
    destruct (loop urls (Some er)) as [tr res]. simpl in *.
    repeat split; eauto.
  - specialize (IH le (Some (EvRobots u false)) I).
    destruct (loop urls le) as [tr res]. simpl in *. auto.
Qed.

Lemma loop_robots_value urls le u b :
  In (EvRobots u b) (fst (loop urls le)) -> b = allowed_ u.
Proof.
  revert le. induction urls as [|v urls IH]; intros le; [intros []|].
  loop_step v; intro Hin.
  - simpl in Hin. destruct Hin as [E|[E|[]]]; inversion E; subst; congruence.
  - simpl in Hin. destruct Hin as [E|[E|[E|[]]]]; inversion E; subst; congruence.
  - specialize (IH (Some er)).
    destruct (loop urls (Some er)) as [tr res]. simpl in *.
    destruct Hin as [E|[E|[E|Hin]]]; try (inversion E; subst; congruence). auto.
  - specialize (IH le).
    destruct (loop urls le) as [tr res]. simpl in *.
    destruct Hin as [E|Hin]; [inversion E; subst; congruence|auto].
Qed.

Lemma loop_no_fetch_refused urls le u :
  allowed_ u = false -> forall e, In e (fst (loop urls le)) -> ~ is_fetch_of u e.
Proof.
  intro Hu. revert le. induction urls as [|v urls IH]; intros le; [intros e []|].
  loop_step v; intros e0 Hin.
  - simpl in Hin. destruct Hin as [<-|[<-|[]]]; simpl; [tauto|congruence].
  - simpl in Hin. destruct Hin as [<-|[<-|[<-|[]]]]; simpl; [tauto|congruence|congruence].
  - specialize (IH (Some er)).
    destruct (loop urls (Some er)) as [tr res]. simpl in *.
    destruct Hin as [<-|[<-|[<-|Hin]]]; simpl; try tauto; try congruence. auto.
  - specialize (IH le).
    destruct (loop urls le) as [tr res]. simpl in *.
    destruct Hin as [<-|Hin]; simpl; [tauto|auto].
Qed.

Lemma loop_success urls le u h :
  snd (loop urls le) = inl (u, h) ->
  exists pre post,
    urls = pre ++ u :: post
    /\ checked_urls (fst (loop urls le)) = pre ++ [u]
    /\ allowed_ u = true
    /\ (playwright_at w u = OK h
        \/ exists e, playwright_at w u = KO e /\ requests_at w u = OK h)
    /\ (forall v, In v pre -> exhausted v)
    /\ exists tr', fst (loop urls le) = tr' ++ [EvPlaywright u (OK h)]
                   \/ fst (loop urls le) = tr' ++ [EvRequests u (OK h)].
Proof.
  revert le. induction urls as [|v urls IH]; intro le; [discriminate|].
  loop_step v; intro Hs.
  - inversion Hs; subst. exists [], urls. repeat split; auto.
    + intros x [].
    + exists [EvRobots u true]. left. reflexivity.
  - inversion Hs; subst. exists [], urls. repeat split; eauto.
    + intros x [].
    + exists [EvRobots u true; EvPlaywright u (KO ep)]. right. reflexivity.
  - specialize (IH (Some er)).
    destruct (loop urls (Some er)) as [tr res]. simpl in *.
    destruct (IH Hs) as (pre & post & Hu & Hc & Hal & Hf & Hpre & tr' & Hlast).
    exists (v :: pre), post. repeat split; auto.
    + simpl. now rewrite Hu.
    + simpl. now rewrite Hc.
    + intros x [<-|Hx]; [|auto]. right. eauto.
    + exists (EvRobots v true :: EvPlaywright v (KO ep) :: EvRequests v (KO er) :: tr').
      destruct Hlast as [-> | ->]; [left|right]; reflexivity.
  - specialize (IH le).
    destruct (loop urls le) as [tr res]. simpl in *.
    destruct (IH Hs) as (pre & post & Hu & Hc & Hal & Hf & Hpre & tr' & Hlast).
    exists (v :: pre), post. repeat split; auto.
    + simpl. now rewrite Hu.
    + simpl. now rewrite Hc.
    + intros x [<-|Hx]; [left; exact Ha|auto].
    + exists (EvRobots v false :: tr').
      destruct Hlast as [-> | ->]; [left|right]; reflexivity.
Qed.


Lemma loop_failure urls le f :
  snd (loop urls le) = inr f ->
  (forall v, In v urls -> exhausted v)
  /\ f = match last_error (fst (loop urls le)) with
         | Some e => Raised e
         | None => raised_of le
         end.
Proof.
  revert le. induction urls as [|v urls IH]; intro le.
  - simpl. intro Hs. inversion Hs; subst. split; [intros x []|reflexivity].
  - loop_step v; intro Hs; try discriminate.
    + specialize (IH (Some er)).
      destruct (loop urls (Some er)) as [tr res]. simpl in *.
      destruct (IH Hs) as [Hex Hf]. split.
      * intros x [<-|Hx]; [right; eauto|auto].
      * rewrite Hf. destruct (last_error tr); reflexivity.
    + specialize (IH le).
      destruct (loop urls le) as [tr res]. simpl in *.
      destruct (IH Hs) as [Hex Hf]. split.
      * intros x [<-|Hx]; [left; exact Ha|auto].
      * rewrite Hf. destruct (last_error tr); reflexivity.
Qed.

Lemma loop_exhausted urls le :
  (forall v, In v urls -> exhausted v) -> exists f, snd (loop urls le) = inr f.
Proof.
  revert le. induction urls as [|v urls IH]; intros le Hall; [eexists; reflexivity|].
  assert (Hrest : forall x, In x urls -> exhausted x) by (intros x Hx; apply Hall; right; exact Hx).
  destruct (Hall v (or_introl eq_refl)) as [Hr|(e1 & e2 & Hp1 & Hr2)].
  - simpl. rewrite Hr. simpl. specialize (IH le Hrest).
    destruct (loop urls le) as [tr res]. exact IH.
  - loop_step v; try congruence.
    + specialize (IH (Some er) Hrest).
      destruct (loop urls (Some er)) as [tr res]. exact IH.
    + specialize (IH le Hrest).
      destruct (loop urls le) as [tr res]. exact IH.
Qed.

Lemma loop_all_refused urls le :
  (forall v, In v urls -> allowed_ v = false) ->
  loop urls le = (map (fun v => EvRobots v false) urls, inr (raised_of le)).
Proof.
  revert le. induction urls as [|v urls IH]; intros le Hall; [reflexivity|].
  simpl. rewrite (Hall v (or_introl eq_refl)). simpl.
  rewrite IH; [reflexivity|]. intros x Hx. apply Hall. right. exact Hx.
Qed.

(** C3. [fetch_first_ok] consults the compliance check for the candidates
    in list order (the checked urls are a prefix of the list); a refused
    candidate is never fetched; each url's browser fetch comes right after
    the check allowing it and its static fetch right after that browser
    fetch failed; a new candidate is checked only after the previous one
    was refused or failed both strategies.  On success it returns the url
    and html of the first candidate that is allowed and fetched by one of
    the strategies, every earlier candidate being refused or failed, and
    the successful fetch is the last action: no later candidate is checked
    or fetched. *)
Theorem fetch_first_ok_order (urls : list text) :
  let r := fetch_first_ok skip ua w urls in
  (exists k, checked_urls (fst r) = firstn k urls)
  /\ well_sequenced None (fst r)
  /\ (forall u b, In (EvRobots u b) (fst r) -> b = allowed_ u)
  /\ (forall u, allowed_ u = false -> forall e, In e (fst r) -> ~ is_fetch_of u e)
  /\ (forall u h, snd r = inl (u, h) ->
      exists pre post,
        urls = pre ++ u :: post
        /\ checked_urls (fst r) = pre ++ [u]
        /\ allowed_ u = true
        /\ (playwright_at w u = OK h
            \/ exists e, playwright_at w u = KO e /\ requests_at w u = OK h)
        /\ (forall v, In v pre -> exhausted v)
        /\ exists tr', fst r = tr' ++ [EvPlaywright u (OK h)]
                       \/ fst r = tr' ++ [EvRequests u (OK h)]).
Proof.
  cbv zeta. unfold fetch_first_ok. split; [apply loop_checked_prefix|].
  split; [apply loop_well_sequenced; exact I|].
  split; [intros u b; apply loop_robots_value|].
  split; [intros u Hu; apply loop_no_fetch_refused; exact Hu|].
  intros u h; apply loop_success.
Qed.

(** C4. When every candidate is refused by the compliance check or fails
    both strategies, [fetch_first_ok] fails, and only then; its failure
    is the most recent error of a fetch ([raise last_err]); when every
    candidate is refused, no fetch is made and it fails with
    [RuntimeError("Toutes les URL ont échoué")]. *)
Theorem fetch_first_ok_exhausted (urls : list text) :
  let r := fetch_first_ok skip ua w urls in
  ((forall v, In v urls -> exhausted v) -> exists f, snd r = inr f)
  /\ (forall f, snd r = inr f ->
        (forall v, In v urls -> exhausted v)
        /\ f = match last_error (fst r) with Some e => Raised e | None => AllUrlsFailed end)
  /\ ((forall v, In v urls -> allowed_ v = false) ->
        snd r = inr AllUrlsFailed /\ forall u e, In e (fst r) -> ~ is_fetch_of u e).
Proof.
  cbv zeta. unfold fetch_first_ok. split; [apply loop_exhausted|].
  split; [intros f Hf; apply (loop_failure urls None f Hf)|].
  intro Hall. rewrite (loop_all_refused urls None Hall). split; [reflexivity|].
  intros u e He. simpl in He. apply in_map_iff in He as [v [<- _]]. simpl. tauto.
Qed.
End FetchProofs.

(** ** Decimal rendering *)

Lemma is_digit_48 n : 0 <= n < 10 -> is_digit (48 + n) = true.
Proof. intro H. unfold is_digit. apply andb_true_iff. split; apply Z.leb_le; lia. Qed.

Lemma dec_aux_spec f : forall n t,
  0 <= n < 10 ^ (Z.of_nat f + 1) ->
  digits_value 0 (dec_aux f n t) = digits_value n t
  /\ (Forall (fun c => is_digit c = true) t ->
      Forall (fun c => is_digit c = true) (dec_aux f n t)).
Proof.
  induction f as [|f IH]; intros n t Hn.
  - cbn in Hn. cbn [dec_aux digits_value]. rewrite is_digit_48 by lia.
    split; [f_equal; lia|intro Ht; constructor; [apply is_digit_48; lia|exact Ht]].
  - cbn [dec_aux]. destruct (Z.ltb_spec n 10) as [Hlt|Hge].
    + cbn [digits_value]. rewrite is_digit_48 by lia.
      split; [f_equal; lia|intro Ht; constructor; [apply is_digit_48; lia|exact Ht]].
    + assert (Hm : 0 <= n mod 10 < 10) by (apply Z.mod_pos_bound; lia).
      assert (Hd : n = 10 * (n / 10) + n mod 10) by (apply Z.div_mod; lia).
      assert (Hq : 0 <= n / 10 < 10 ^ (Z.of_nat f + 1)).
      { split; [apply Z.div_pos; lia|].
        apply Z.div_lt_upper_bound; [lia|].
        rewrite Nat2Z.inj_succ, <- Z.add_1_r in Hn.
        rewrite (Z.pow_add_r 10 (Z.of_nat f + 1) 1) in Hn by lia. lia. }
      destruct (IH (n / 10) ((48 + n mod 10) :: t) Hq) as [Hv Hdig].
      split.
      * rewrite Hv. cbn [digits_value]. rewrite is_digit_48 by lia. f_equal. lia.
      * intro Ht. apply Hdig. constructor; [apply is_digit_48; lia|exact Ht].
Qed.

Lemma dec_fuel n : 0 <= n -> 0 <= n < 10 ^ (Z.of_nat (Z.to_nat (Z.log2 n)) + 1).
Proof.
  intro Hn. split; [exact Hn|].
  rewrite Z2Nat.id by apply Z.log2_nonneg.
  destruct (Z.eq_dec n 0) as [->|Hn0].
  - apply Z.pow_pos_nonneg; [lia|]. pose proof (Z.log2_nonneg 0). lia.
  - destruct (Z.log2_spec n) as [_ Hup]; [lia|].
    eapply Z.lt_le_trans; [exact Hup|]. rewrite <- Z.add_1_r.
    apply Z.pow_le_mono_l. lia.
Qed.

Lemma dec_value n : 0 <= n -> digits_value 0 (dec n) = Some n.
Proof.
  intro Hn. unfold dec. rewrite (proj1 (dec_aux_spec _ n [] (dec_fuel n Hn))). reflexivity.
Qed.

Lemma dec_digits n : 0 <= n -> Forall (fun c => is_digit c = true) (dec n).
Proof.
  intro Hn. unfold dec. apply (proj2 (dec_aux_spec _ n [] (dec_fuel n Hn))). constructor.
Qed.

Lemma py_str_int_nonneg n : 0 <= n -> py_str_int n = dec n.
Proof. intro Hn. unfold py_str_int. destruct (Z.ltb_spec n 0); [lia|reflexivity]. Qed.

Lemma join_cons_concat sep x l :
  join sep (x :: l) = x ++ List.concat (map (fun c => sep ++ c) l).
Proof.
  revert x. induction l as [|y l IH]; intro x; [simpl; now rewrite app_nil_r|].
  change (join sep (x :: y :: l)) with (x ++ sep ++ join sep (y :: l)).
  rewrite IH. cbn [map List.concat]. rewrite <- ?app_assoc; reflexivity.
Qed.

Lemma body_of_concat cs :
  body_of cs = List.concat (map (fun c => [newline; bullet; space] ++ c) cs).
Proof.
  destruct cs as [|c cs]; [reflexivity|].
  unfold body_of. rewrite join_cons_concat. reflexivity.
Qed.

Lemma pct_list_dec hs :
  pct_list hs = join (str ", ") (map (fun v => dec (Z.abs v) ++ [percent]) (firstn 5 hs)).
Proof.
  unfold pct_list. f_equal. apply map_ext. intro v.
  rewrite py_str_int_nonneg by apply Z.abs_nonneg. reflexivity.
Qed.

Lemma cards_collapsed sel d c :
  In c (cards (extract_promos_with sel d)) -> collapsed c = true.
Proof.
  unfold extract_promos_with. cbn [cards]. rewrite card_loop_map_filter, firstn_map.
  intro Hc. apply in_map_iff in Hc as [n [<- _]].
  apply collapsed_aux_firstn, snippet_collapsed.
Qed.

Lemma job_once_fetched {exn} (exn_str : exn -> text) skip (w : world exn) parse now u html :
  snd (fetch_first_ok skip USER_AGENT w PROMO_URLS) = inl (u, html) ->
  job_once exn_str skip w parse now
  = (fst (fetch_first_ok skip USER_AGENT w PROMO_URLS),
     match hits (extract_promos (parse html)) with
     | _ :: _ => [Send (alert_msg (extract_promos (parse html)) u)]
     | [] => [Send (none_msg now u)]
     end).
Proof.
  intro Hok. unfold job_once.
  destruct (fetch_first_ok skip USER_AGENT w PROMO_URLS) as [tr res].
  simpl in Hok. subst res. destruct (hits (extract_promos (parse html))); reflexivity.
Qed.

Lemma job_once_failed {exn} (exn_str : exn -> text) skip (w : world exn) parse now f :
  snd (fetch_first_ok skip USER_AGENT w PROMO_URLS) = inr f ->
  job_once exn_str skip w parse now
  = (fst (fetch_first_ok skip USER_AGENT w PROMO_URLS), [Send (error_msg exn_str f)]).
Proof.
  intro Hf. unfold job_once.
  destruct (fetch_first_ok skip USER_AGENT w PROMO_URLS) as [tr res].
  simpl in Hf. subst res. reflexivity.
Qed.

(** ** Claims about [allowed_by_robots] and [job_once] *)

(** C5 (amended). [allowed_by_robots] never raises.  When reading
    robots.txt raises (network error, timeout, undecodable body), it
    returns a fixed default whatever the exception: allowed in the
    watcher, refused in the setup-script variant.  When the server answers
    robots.txt with an HTTP error status, [RobotFileParser] decides
    instead, the same in both variants: 401 and 403 refuse, any other 4xx
    allows, any other status (5xx) refuses.  With [SKIP_ROBOTS] the
    watcher always allows. *)
Theorem allowed_by_robots_failures {exn : Type} (e : exn) (code : Z) (ua url : text) :
  allowed_by_robots false (RobotsRaise e) ua url = true
  /\ allowed_by_robots_setup (RobotsRaise e) ua url = false
  /\ allowed_by_robots false (@RobotsHTTPError exn code) ua url
     = negb ((code =? 401) || (code =? 403)) && ((400 <=? code) && (code <? 500))
  /\ allowed_by_robots_setup (@RobotsHTTPError exn code) ua url
     = negb ((code =? 401) || (code =? 403)) && ((400 <=? code) && (code <? 500))
  /\ (forall f : robots_fetch exn, allowed_by_robots true f ua url = true).
Proof.
  unfold allowed_by_robots, allowed_by_robots_setup, rp_read, can_fetch.
  split; [reflexivity|]. split; [reflexivity|].
  destruct ((code =? 401) || (code =? 403)); simpl;
    [|destruct ((400 <=? code) && (code <? 500))]; simpl; repeat split; reflexivity.
Qed.

(** C5 refuted: two failures to retrieve robots.txt, an HTTP 403 answer
    and a connection error, give different answers in the watcher; in the
    setup-script variant a 404 answer and a connection error do. *)
Lemma allowed_by_robots_counterexample :
  allowed_by_robots false (RobotsHTTPError (exn := unit) 403) USER_AGENT (hd [] PROMO_URLS) = false
  /\ allowed_by_robots false (RobotsRaise tt) USER_AGENT (hd [] PROMO_URLS) = true
  /\ allowed_by_robots_setup (RobotsHTTPError (exn := unit) 404) USER_AGENT_setup PROMO_URL = true
  /\ allowed_by_robots_setup (RobotsRaise tt) USER_AGENT_setup PROMO_URL = false.
Proof. repeat split; reflexivity. Qed.

(** C8 (amended). In the watcher, once [fetch_first_ok] gave [(u, html)]:
    with a non-empty hit list the message sent is the header
    "🛒 Carrefour : N remise(s) ≥ 50% (P)" where N is the decimal size of
    the hit list and P the comma-joined magnitudes of at most its first 5
    values, each as digits (no sign) followed by '%', then one
    "\n• snippet" line per snippet (none without snippets; a snippet holds
    no line break), then "Source : u"; with an empty hit list it is
    "🕐 HH:MM — aucune remise ≥ 50% trouvée (source : u).".  In the
    setup-script variant the alert ends with "Lien: PROMO_URL" and the
    no-hit message "🕓 HH:MM – aucune remise ≥ 50% trouvée." names no url. *)
Theorem job_once_messages {exn : Type} (exn_str : exn -> text) (skip : bool)
  (w : world exn) (parse : text -> document) (now : clock) (u html : text)
  (Hok : snd (fetch_first_ok skip USER_AGENT w PROMO_URLS) = inl (u, html)) :
  let ex := extract_promos (parse html) in
  (hits ex <> [] ->
     snd (job_once exn_str skip w parse now) =
       [Send ([128722] ++ str " Carrefour : " ++ dec (Z.of_nat (List.length (hits ex)))
              ++ remises_ge_50 ++ str " ("
              ++ join (str ", ") (map (fun v => dec (Z.abs v) ++ [percent]) (firstn 5 (hits ex)))
              ++ str ")" ++ [newline]
              ++ List.concat (map (fun c => [newline; bullet; space] ++ c) (cards ex))
              ++ [newline; newline] ++ str "Source : " ++ u)]
     /\ digits_value 0 (dec (Z.of_nat (List.length (hits ex))))
        = Some (Z.of_nat (List.length (hits ex)))
     /\ (List.length (firstn 5 (hits ex)) <= 5)%nat
     /\ (forall v, In v (firstn 5 (hits ex)) ->
           digits_value 0 (dec (Z.abs v)) = Some (Z.abs v)
           /\ Forall (fun c => is_digit c = true) (dec (Z.abs v)))
     /\ (forall c, In c (cards ex) -> ~ In newline c))
  /\ (hits ex = [] ->
      snd (job_once exn_str skip w parse now) =
        [Send ([128336; space] ++ hh_mm now ++ [space; 8212; space] ++ aucune_remise
               ++ str " (source : " ++ u ++ str ").")])
  /\ (forall h0,
        allowed_by_robots_setup (robots_at w PROMO_URL) USER_AGENT_setup PROMO_URL = true ->
        requests_at w PROMO_URL = OK h0 ->
        (hits (extract_promos_setup (parse h0)) <> [] ->
           job_once_setup w parse now = [Send (alert_msg_setup (extract_promos_setup (parse h0)))])
        /\ (hits (extract_promos_setup (parse h0)) = [] ->
           job_once_setup w parse now =
             [Send ([128339; space] ++ hh_mm now ++ [space; 8211; space] ++ aucune_remise
                    ++ str ".")])).
Proof.
  cbv zeta. rewrite (job_once_fetched exn_str skip w parse now u html Hok). cbn [snd].
  split; [|split].
  - intro Hne. split; [|split; [|split; [|split]]].
    + destruct (hits (extract_promos (parse html))) as [|v vs] eqn:Eh; [congruence|].
      unfold alert_msg. rewrite pct_list_dec, body_of_concat, Eh.
      rewrite <- ?app_assoc; reflexivity.
    + apply dec_value. lia.
    + apply firstn_le_length.
    + intros v _. split; [apply dec_value|apply dec_digits]; apply Z.abs_nonneg.
    + intros c Hc. apply collapsed_aux_no_newline with (b := true).
      exact (cards_collapsed is_card (parse html) c Hc).
  - intro E. rewrite E. unfold none_msg. rewrite <- ?app_assoc; reflexivity.
  - intros h0 Hrob Hreq. unfold job_once_setup. rewrite Hrob, Hreq. cbn [negb].
    split.
    + intro Hne. destruct (hits (extract_promos_setup (parse h0))); [congruence|reflexivity].
    + intro E. rewrite E. unfold none_msg_setup. rewrite <- ?app_assoc; reflexivity.
Qed.

Lemma job_once_messages_witness :
  snd (fetch_first_ok false USER_AGENT sample_world_ok PROMO_URLS)
    = inl (str "https://www.carrefour.fr/promotions", str "<li>Soldes -60%</li>")
  /\ snd (job_once (fun _ => []) false sample_world_ok sample_parse sample_clock)
     = [Send ([128722] ++ str " Carrefour : " ++ dec 1 ++ remises_ge_50 ++ str " ("
              ++ join (str ", ") [dec 60 ++ [percent]] ++ str ")" ++ [newline]
              ++ [newline; bullet; space] ++ str "Soldes -60%"
              ++ [newline; newline] ++ str "Source : "
              ++ str "https://www.carrefour.fr/promotions")].
Proof.
  split; [reflexivity|].
  apply (job_once_messages (fun _ => []) false sample_world_ok sample_parse sample_clock
           (str "https://www.carrefour.fr/promotions") (str "<li>Soldes -60%</li>")).
  - reflexivity.
  - discriminate.
Defined.

(** C8 refuted: in the setup-script variant, a run that finds no hit
    sends a message that does not name the url. *)
Lemma job_once_setup_no_url_counterexample :
  exists m,
    job_once_setup sample_world_ok sample_parse_none sample_clock = [Send m]
    /\ contains PROMO_URL m = false
    /\ contains (hh_mm sample_clock) m = true.
Proof. eexists. split; [reflexivity|]. split; vm_compute; reflexivity. Qed.

(** C9 (amended). In the watcher, when [fetch_first_ok] fails with [f],
    [job_once] hands exactly one message to [send_telegram], the error
    notification "⚠️ Erreur de téléchargement des pages promos: {f}",
    which differs from every "nothing found" message; it returns (nothing
    is raised) and its outcome does not depend on the parser or the clock:
    no extraction or composition is run.  The setup-script variant sends
    no message at all when its download fails. *)
Theorem job_once_fetch_failure {exn : Type} (exn_str : exn -> text) (skip : bool)
  (w : world exn) (parse : text -> document) (now : clock) (f : failure exn)
  (Hf : snd (fetch_first_ok skip USER_AGENT w PROMO_URLS) = inr f) :
  snd (job_once exn_str skip w parse now) = [Send (error_msg exn_str f)]
  /\ (forall parse' now', job_once exn_str skip w parse' now' = job_once exn_str skip w parse now)
  /\ (forall now' u, error_msg exn_str f <> none_msg now' u)
  /\ (forall e, requests_at w PROMO_URL = KO e ->
        forall parse' now', job_once_setup w parse' now' = []).
Proof.
  rewrite (job_once_failed exn_str skip w parse now f Hf). split; [reflexivity|].
  split; [intros parse' now'; exact (job_once_failed exn_str skip w parse' now' f Hf)|].
  split.
  - intros now' u H. unfold error_msg, none_msg in H. simpl in H. inversion H.
  - intros e He parse' now'. unfold job_once_setup. rewrite He.
    destruct (negb _); reflexivity.
Qed.

Lemma job_once_fetch_failure_witness :
  snd (fetch_first_ok false USER_AGENT sample_world_down PROMO_URLS) = inr (Raised tt)
  /\ snd (job_once (fun _ => str "timeout") false sample_world_down sample_parse sample_clock)
     = [Send (error_msg (fun _ => str "timeout") (Raised tt))].
Proof.
  split; [reflexivity|].
  apply (job_once_fetch_failure (fun _ => str "timeout") false sample_world_down
           sample_parse sample_clock (Raised tt)).
  reflexivity.
Defined.

(** C9 refuted: the setup-script variant, whose download fails, sends no
    error notification. *)
Lemma job_once_setup_silent_counterexample :
  job_once_setup sample_world_down sample_parse sample_clock = [].
Proof. reflexivity. Qed.

(* ================================================================== *)
(** * Further properties of the code *)

(** ** The token scan is local to a text node *)

Lemma digit_prefix_app n s t :
  guarded t -> digit_prefix n (s ++ t) = digit_prefix n s.
Proof.
  intro Ht. revert s. induction n as [|n IH]; intro s; [reflexivity|].
  destruct s as [|c s].
  - destruct Ht as [->|[x [y [r [-> [[Hx _] _]]]]]]; [reflexivity|].
    simpl. now rewrite Hx.
  - simpl. destruct (is_digit c); [now rewrite IH|reflexivity].
Qed.

Lemma digit_prefix_le n s :
  (digit_prefix n s <= List.length s)%nat /\ (digit_prefix n s <= n)%nat.
Proof.
  revert s. induction n as [|n IH]; intro s; [simpl; lia|].
  destruct s as [|c s]; simpl; [lia|].
  destruct (is_digit c); [destruct (IH s); lia|lia].
Qed.

Lemma pct_tail_app u t : guarded t -> pct_tail (u ++ t) = pct_tail u.
Proof.
  intro Ht. destruct Ht as [->|[x [y [r [-> [[_ [Hx _]] [_ [Hy _]]]]]]]];
    [now rewrite app_nil_r|].
  apply Z.eqb_neq in Hx. apply Z.eqb_neq in Hy.
  destruct u as [|c [|d u]]; [|simpl|reflexivity].
  - unfold pct_tail. simpl. now rewrite Hy, andb_false_r, Hx.
  - unfold pct_tail. simpl. now rewrite Hx, andb_false_r.
Qed.

Lemma pct_tail_le u n : pct_tail u = Some n -> (n <= List.length u)%nat.
Proof.
  unfold pct_tail. destruct u as [|c [|d u]]; simpl.
  - discriminate.
  - destruct (c =? percent); intro E; inversion E; lia.
  - destruct (is_space c && (d =? percent)); intro E; [inversion E; lia|].
    destruct (c =? percent); inversion E; lia.
Qed.

Lemma try_digits_app k s t :
  (k <= List.length s)%nat -> guarded t -> try_digits k (s ++ t) = try_digits k s.
Proof.
  intros Hk Ht. induction k as [|k IH]; [reflexivity|].
  cbn [try_digits]. rewrite skipn_app.
  replace (S k - List.length s)%nat with O by lia. cbn [skipn].
  rewrite pct_tail_app by exact Ht. rewrite IH by lia. reflexivity.
Qed.

Lemma try_digits_bounds k s k' n :
  try_digits k s = Some (k', n) ->
  (1 <= k' <= k)%nat /\ (n <= List.length (skipn k' s))%nat.
Proof.
  induction k as [|k IH]; cbn [try_digits]; [discriminate|].
  destruct (pct_tail (skipn (S k) s)) as [m|] eqn:E.
  - intro H. inversion H; subst. split; [lia|]. now apply pct_tail_le.
  - intro H. destruct (IH H). split; [lia|assumption].
Qed.

Lemma match_body_app s t : guarded t -> match_body (s ++ t) = match_body s.
Proof.
  intro Ht. unfold match_body.
  rewrite digit_prefix_app by exact Ht.
  destruct (digit_prefix_le 3 s) as [Hl _].
  rewrite try_digits_app by assumption.
  destruct (try_digits (digit_prefix 3 s) s) as [[k n]|] eqn:E; [|reflexivity].
  destruct (try_digits_bounds _ _ _ _ E) as [Hk _].
  rewrite firstn_app. replace (k - List.length s)%nat with O by lia.
  now rewrite firstn_O, app_nil_r.
Qed.

Lemma match_body_len s g n :
  match_body s = Some (g, n) -> (n <= List.length s)%nat.
Proof.
  unfold match_body. destruct (try_digits (digit_prefix 3 s) s) as [[k m]|] eqn:E;
    [|discriminate].
  intro H. inversion H; subst.
  destruct (try_digits_bounds _ _ _ _ E) as [Hk Hm].
  destruct (digit_prefix_le 3 s). rewrite length_skipn in Hm. lia.
Qed.

Lemma match_at_app s t : guarded t -> match_at (s ++ t) = match_at s.
Proof.
  intro Ht. destruct s as [|c s].
  - destruct Ht as [->|[x [y [r [-> [[Hd [_ Hm]] _]]]]]]; [reflexivity|].
    apply Z.eqb_neq in Hm. simpl. unfold match_at. rewrite Hm.
    unfold match_body. simpl. now rewrite Hd.
  - change ((c :: s) ++ t) with (c :: (s ++ t)). unfold match_at.
    rewrite match_body_app by exact Ht.
    change (c :: s ++ t) with ((c :: s) ++ t).
    rewrite match_body_app by exact Ht. reflexivity.
Qed.

Lemma match_at_len s g n : match_at s = Some (g, n) -> (n <= List.length s)%nat.
Proof.
  destruct s as [|c s]; [discriminate|]. unfold match_at.
  destruct (c =? minus).
  - destruct (match_body s) as [[g' n']|] eqn:E.
    + intro H. inversion H; subst. apply match_body_len in E. simpl. lia.
    + apply match_body_len.
  - apply match_body_len.
Qed.

Lemma finditer_app skip s t :
  guarded t -> finditer skip (s ++ t) = finditer skip s ++ finditer (skip - List.length s) t.
Proof.
  intro Ht. revert skip. induction s as [|c s IH]; intro skip.
  - simpl. now rewrite Nat.sub_0_r.
  - destruct skip as [|k].
    + change ((c :: s) ++ t) with (c :: (s ++ t)). cbn [finditer].
      change (c :: s ++ t) with ((c :: s) ++ t). rewrite match_at_app by exact Ht.
      destruct (match_at (c :: s)) as [[g n]|] eqn:E.
      * apply match_at_len in E. simpl in E. rewrite IH.
        replace (n - 1 - List.length s)%nat with O by lia. reflexivity.
      * rewrite IH. reflexivity.
    + cbn [finditer app]. rewrite IH. reflexivity.
Qed.

Lemma match_at_sep x r : sep_char x -> match_at (x :: r) = None.
Proof.
  intros [Hd [_ Hm]]. apply Z.eqb_neq in Hm. unfold match_at. rewrite Hm.
  unfold match_body. simpl. now rewrite Hd.
Qed.

Lemma finditer_join x y l :
  sep_char x -> sep_char y ->
  finditer 0 (join [x; y] l) = flat_map (finditer 0) l.
Proof.
  intros Hx Hy. induction l as [|a l IH]; [reflexivity|].
  destruct l as [|b l].
  - simpl. now rewrite app_nil_r.
  - change (join [x; y] (a :: b :: l)) with (a ++ [x; y] ++ join [x; y] (b :: l)).
    rewrite finditer_app by (right; do 3 eexists; split; [reflexivity|split; assumption]).
    change (flat_map (finditer 0) (a :: b :: l))
      with (finditer 0 a ++ flat_map (finditer 0) (b :: l)).
    rewrite <- IH. f_equal. rewrite Nat.sub_0_l. cbn [app finditer].
    rewrite match_at_sep by exact Hx. rewrite match_at_sep by exact Hy. reflexivity.
Qed.

Lemma sep_space : sep_char space.
Proof. repeat split; discriminate. Qed.

Lemma sep_newline : sep_char newline.
Proof. repeat split; discriminate. Qed.

Lemma collect_app a b : collect (a ++ b) = collect a ++ collect b.
Proof.
  induction a as [|g a IH]; [reflexivity|]. simpl.
  destruct (py_int (replace_minus g)); [now rewrite IH|exact IH].
Qed.

Lemma collect_flat_map l :
  collect (flat_map (finditer 0) l) = flat_map (fun x => collect (finditer 0 x)) l.
Proof.
  induction l as [|x l IH]; [reflexivity|]. simpl. now rewrite collect_app, IH.
Qed.

(** Tokens are never formed across text nodes: scanning [full_text] finds
    exactly the tokens of the stripped, non-empty text nodes scanned one
    by one, in document order (the " \n" joiner holds two whitespace
    characters, and the pattern admits at most one). *)
Theorem full_text_tokens_per_node (d : document) :
  found_values (full_text d)
  = flat_map found_values (filter nonempty (map strip (doc_strings d))).
Proof.
  unfold found_values, full_text. rewrite (finditer_join _ _ _ sep_space sep_newline).
  apply collect_flat_map.
Qed.

(** ** Every token parses, to a value of at most three digits *)

Lemma digit_prefix_firstn k n s :
  (k <= digit_prefix n s)%nat ->
  Forall (fun c => is_digit c = true) (firstn k s) /\ List.length (firstn k s) = k.
Proof.
  revert k s. induction n as [|n IH]; intros k s Hk.
  - simpl in Hk. replace k with O by lia. split; [constructor|reflexivity].
  - destruct s as [|c s]; simpl in Hk; [replace k with O by lia; split; [constructor|reflexivity]|].
    destruct (is_digit c) eqn:Ec; [|replace k with O by lia; split; [constructor|reflexivity]].
    destruct k as [|k]; [split; [constructor|reflexivity]|].
    destruct (IH k s ltac:(lia)) as [HF HL]. simpl. split; [now constructor|now rewrite HL].
Qed.

Lemma match_body_shape s g n :
  match_body s = Some (g, n) ->
  (1 <= List.length g <= 3)%nat /\ Forall (fun c => is_digit c = true) g.
Proof.
  unfold match_body.
  destruct (try_digits (digit_prefix 3 s) s) as [[k m]|] eqn:E; [|discriminate].
  intro H. inversion H; subst.
  destruct (try_digits_bounds _ _ _ _ E) as [Hk _].
  destruct (digit_prefix_le 3 s) as [_ H3].
  destruct (digit_prefix_firstn k 3 s ltac:(lia)) as [HF HL].
  rewrite HL. split; [lia|exact HF].
Qed.

Lemma match_at_shape s g n : match_at s = Some (g, n) -> token_shape g.
Proof.
  destruct s as [|c s]; [discriminate|]. unfold match_at.
  destruct (Z.eqb_spec c minus) as [->|_].
  - destruct (match_body s) as [[g' n']|] eqn:E.
    + intro H. inversion H; subst. destruct (match_body_shape _ _ _ E).
      exists g'. auto.
    + intro H. destruct (match_body_shape _ _ _ H). exists g. auto.
  - intro H. destruct (match_body_shape _ _ _ H). exists g. auto.
Qed.

Lemma finditer_shape skip s g : In g (finditer skip s) -> token_shape g.
Proof.
  revert skip. induction s as [|c s IH]; intros skip Hin; [destruct Hin|].
  destruct skip as [|k]; cbn [finditer] in Hin; [|exact (IH _ Hin)].
  destruct (match_at (c :: s)) as [[g' n]|] eqn:E; [|exact (IH _ Hin)].
  destruct Hin as [<-|Hin]; [exact (match_at_shape _ _ _ E)|exact (IH _ Hin)].
Qed.

Lemma digits_value_bound ds acc :
  Forall (fun c => is_digit c = true) ds -> 0 <= acc ->
  exists v, digits_value acc ds = Some v
            /\ 0 <= v < (acc + 1) * 10 ^ Z.of_nat (List.length ds).
Proof.
  intro HF. revert acc. induction HF as [|c ds Hc HF IH]; intros acc Hacc.
  - exists acc. split; [reflexivity|]. change (Z.of_nat (List.length [])) with 0.
    rewrite Z.pow_0_r. lia.
  - unfold is_digit in Hc. apply andb_true_iff in Hc as [H1 H2].
    apply Z.leb_le in H1. apply Z.leb_le in H2.
    destruct (IH (acc * 10 + (c - 48)) ltac:(lia)) as [v [Hv Hb]].
    exists v. cbn [digits_value]. unfold is_digit.
    rewrite (proj2 (Z.leb_le 48 c) H1), (proj2 (Z.leb_le c 57) H2). split; [exact Hv|].
    cbn [List.length]. rewrite Nat2Z.inj_succ, Z.pow_succ_r by lia.
    assert (0 < 10 ^ Z.of_nat (List.length ds)) by (apply Z.pow_pos_nonneg; lia).
    nia.
Qed.

Lemma replace_minus_id g :
  (forall c, In c g -> c <> unicode_minus) -> replace_minus g = g.
Proof.
  intro H. unfold replace_minus. rewrite <- (map_id g) at 2. apply map_ext_in.
  intros c Hc. destruct (Z.eqb_spec c unicode_minus); [exfalso; exact (H c Hc e)|reflexivity].
Qed.

Lemma token_value g :
  token_shape g -> exists v, py_int (replace_minus g) = Some v /\ Z.abs v <= 999.
Proof.
  intros [ds [Hg [Hl HF]]].
  assert (Hnd : forall c, In c ds -> c <> unicode_minus).
  { intros c Hc E. rewrite Forall_forall in HF. specialize (HF c Hc).
    subst c. discriminate. }
  destruct (digits_value_bound ds 0 HF ltac:(lia)) as [v [Hv Hb]].
  assert (Hp : 10 ^ Z.of_nat (List.length ds) <= 1000).
  { replace 1000 with (10 ^ Z.of_nat 3) by reflexivity.
    apply Z.pow_le_mono_r; lia. }
  destruct ds as [|c r]; [simpl in Hl; lia|].
  assert (Hc : c <> minus).
  { intro E. inversion HF; subst. discriminate. }
  destruct Hg as [->| ->].
  - rewrite replace_minus_id by exact Hnd. exists v. split; [|lia].
    unfold py_int. destruct (Z.eqb_spec c minus); [contradiction|exact Hv].
  - rewrite replace_minus_id
      by (intros x [<-|Hx]; [discriminate|exact (Hnd x Hx)]).
    exists (- v). split; [|lia]. cbn [py_int]. rewrite Z.eqb_refl, Hv. reflexivity.
Qed.

Lemma collect_tokens gs :
  (forall g, In g gs -> token_shape g) ->
  List.length (collect gs) = List.length gs /\ (forall v, In v (collect gs) -> Z.abs v <= 999).
Proof.
  induction gs as [|g gs IH]; intro H; [split; [reflexivity|intros v []]|].
  destruct (token_value g (H g (or_introl eq_refl))) as [v [Hv Hb]].
  destruct (IH (fun x Hx => H x (or_intror Hx))) as [HL HB].
  cbn [collect]. rewrite Hv. split; [simpl; now rewrite HL|].
  intros x [<-|Hx]; [exact Hb|exact (HB x Hx)].
Qed.

(** The [except ValueError] of the [found] loop never runs: every match
    of [PCT_RE] parses, so a text yields one value per token, and each
    value has at most three digits. *)
Theorem found_values_one_per_token (s : text) :
  List.length (found_values s) = List.length (finditer 0 s)
  /\ (forall v, In v (found_values s) -> Z.abs v <= 999).
Proof.
  apply collect_tokens. intros g Hg. exact (finditer_shape _ _ _ Hg).
Qed.

(** Every hit reported lies between 50 and 999 in absolute value, in both
    variants. *)
Theorem extract_hits_range (sel : node -> bool) (d : document) (v : Z) :
  In v (hits (extract_promos_with sel d)) -> 50 <= Z.abs v <= 999.
Proof.
  cbn [extract_promos_with hits]. rewrite sorted_set_desc_In, filter_In.
  intros [Hin Hq]. unfold qualifies in Hq. apply Z.leb_le in Hq.
  destruct (collect_tokens (finditer 0 (full_text d))) as [_ HB];
    [intros g Hg; exact (finditer_shape _ _ _ Hg)|].
  split; [exact Hq|exact (HB v Hin)].
Qed.

Lemma extract_hits_range_witness :
  In (-60) (hits (extract_promos (sample_parse []))) /\ 50 <= Z.abs (-60) <= 999.
Proof.
  assert (H : In (-60) (hits (extract_promos (sample_parse [])))) by (vm_compute; now left).
  split; [exact H|]. exact (extract_hits_range is_card (sample_parse []) (-60) H).
Defined.

(** ** The browser fetch *)

Section BrowserProofs.
Context {exn : Type}.
Implicit Types (b : browser exn).

Lemma bind_call_ok {A} b o (k : unit -> PW A) tr :
  answer b o = None -> pw_bind (pw_call b o) k tr = k tt (tr ++ [o]).
Proof. intro H. unfold pw_bind, pw_call. now rewrite H. Qed.

Lemma bind_call_ko {A} b o (k : unit -> PW A) tr e :
  answer b o = Some e -> pw_bind (pw_call b o) k tr = (tr ++ [o], inr e).
Proof. intro H. unfold pw_bind, pw_call. now rewrite H. Qed.

Lemma finally_trace {A} (m : @PW exn A) fin tr :
  fst (pw_finally m fin tr) = fst (fin (fst (m tr))).
Proof.
  unfold pw_finally. destruct (m tr) as [tr1 r]. cbn [fst].
  now destruct (fin tr1) as [tr2 rf].
Qed.

Lemma appends_call P b o : P o -> appends_only P (pw_call b o).
Proof. intros H tr. exists [o]. split; [reflexivity|now constructor]. Qed.

Lemma appends_ret P {A} (a : A) : appends_only P (@pw_ret exn A a).
Proof. intro tr. exists []. split; [simpl; now rewrite app_nil_r|constructor]. Qed.

Lemma appends_bind P {A B} (m : @PW exn A) (k : A -> PW B) :
  appends_only P m -> (forall a, appends_only P (k a)) -> appends_only P (pw_bind m k).
Proof.
  intros Hm Hk tr. unfold pw_bind. destruct (Hm tr) as [e1 [H1 F1]].
  destruct (m tr) as [tr1 [a|e]]; simpl in H1; subst tr1.
  - destruct (Hk a (tr ++ e1)) as [e2 [H2 F2]]. exists (e1 ++ e2).
    rewrite H2, app_assoc. split; [reflexivity|now apply Forall_app].
  - exists e1. auto.
Qed.

Lemma click_first_ok b sels t tr0 tr u :
  click_first b sels t tr0 = (tr, inl u) ->
  exists cs, tr = tr0 ++ cs /\ Forall (benign_click b) cs.
Proof.
  revert tr0. induction sels as [|s rest IH]; intro tr0.
  - intro H. inversion H; subst. exists []. split; [now rewrite app_nil_r|constructor].
  - cbn [click_first]. unfold pw_call.
    destruct (answer b (Click s t)) as [[|e]|] eqn:E; cbn iota beta.
    + intro H. destruct (IH _ H) as [cs [-> F]]. exists (Click s t :: cs).
      split; [now rewrite <- app_assoc|]. constructor; [exists s, t; auto|exact F].
    + discriminate.
    + intro H. inversion H; subst. exists [Click s t].
      split; [reflexivity|]. constructor; [exists s, t; auto|constructor].
Qed.

Lemma appends_click P b sels t :
  (forall s, P (Click s t)) -> appends_only P (click_first b sels t).
Proof.
  intros HP tr. revert tr. induction sels as [|s rest IH]; intro tr.
  - exists []. split; [simpl; now rewrite app_nil_r|constructor].
  - cbn [click_first]. unfold pw_call.
    destruct (answer b (Click s t)) as [[|e]|] eqn:E; cbn iota beta.
    + destruct (IH (tr ++ [Click s t])) as [ext [H F]]. exists (Click s t :: ext).
      rewrite H, <- app_assoc. split; [reflexivity|constructor; auto].
    + exists [Click s t]. split; [reflexivity|constructor; auto].
    + exists [Click s t]. split; [reflexivity|constructor; auto].
Qed.

Lemma not_closing_click (s : text) t : not_closing (Click s t).
Proof. repeat split; discriminate. Qed.

Lemma page_body_appends b url :
  appends_only not_closing
    (pw_bind (pw_call b (Goto url)) (fun _ =>
     pw_bind (click_first b consent_selectors 2000) (fun _ =>
     pw_bind (click_first b close_selectors 1500) (fun _ =>
     pw_bind (pw_call b WaitIdle) (fun _ =>
     pw_bind (pw_call b Sleep) (fun _ =>
     pw_bind (pw_call b Content) (fun _ => pw_ret (page_html b)))))))).
Proof.
  repeat (apply appends_bind; [|intros _]);
    solve [ apply appends_ret
          | apply appends_click; intro; apply not_closing_click
          | apply appends_call; repeat split; discriminate ].
Qed.

(** Once [ctx.new_page()] has returned, the [finally] always runs:
    whatever the page work does, [ctx.close()] follows it, then
    [browser.close()] unless [ctx.close()] raised, and the run ends by
    leaving the Playwright context. *)
Theorem playwright_closes_after_page b url :
  answer b PwStart = None -> answer b Launch = None -> answer b NewContext = None ->
  answer b InitScript = None -> answer b NewPage = None ->
  exists body,
    fst (fetch_with_playwright b url [])
    = [PwStart; Launch; NewContext; InitScript; NewPage] ++ body ++ [CloseCtx]
      ++ match answer b CloseCtx with None => [CloseBrowser] | Some _ => [] end
      ++ [PwStop]
    /\ Forall not_closing body.
Proof.
  intros H0 H1 H2 H3 H4. unfold fetch_with_playwright.
  rewrite (bind_call_ok _ _ _ _ H0), finally_trace.
  rewrite (bind_call_ok _ _ _ _ H1), (bind_call_ok _ _ _ _ H2),
    (bind_call_ok _ _ _ _ H3), (bind_call_ok _ _ _ _ H4), finally_trace.
  destruct (page_body_appends b url ((((([] ++ [PwStart]) ++ [Launch]) ++ [NewContext])
                                        ++ [InitScript]) ++ [NewPage]))
    as [body [Hb Fb]].
  rewrite Hb. exists body. split; [|exact Fb].
  destruct (answer b CloseCtx) eqn:Ec.
  - rewrite (bind_call_ko _ _ _ _ _ Ec). simpl. now rewrite <- !app_assoc.
  - rewrite (bind_call_ok _ _ _ _ Ec). simpl. now rewrite <- !app_assoc.
Qed.

(** When one of [browser.launch], [new_context], [add_init_script] and
    [new_page] raises (the [k]-th, the earlier ones having completed), the
    run stops at that call and only leaves the Playwright context:
    [ctx.close()] and [browser.close()] are never called (they sit in the
    [finally] of a [try] entered after [new_page]), and the fetch raises
    that call's exception, or the exit's own if leaving the context
    raises. *)
Theorem playwright_setup_failure b url k e :
  answer b PwStart = None ->
  (k < 4)%nat ->
  (forall j, (j < k)%nat ->
     answer b (nth j [Launch; NewContext; InitScript; NewPage] Launch) = None) ->
  answer b (nth k [Launch; NewContext; InitScript; NewPage] Launch) = Some e ->
  fst (fetch_with_playwright b url [])
    = [PwStart] ++ firstn (S k) [Launch; NewContext; InitScript; NewPage] ++ [PwStop]
  /\ snd (fetch_with_playwright b url [])
     = inr (match answer b PwStop with None => e | Some e' => e' end).
Proof.
  intros H0 Hk Hpre He. unfold fetch_with_playwright, pw_finally, pw_bind, pw_ret, pw_call.
  rewrite H0.
  destruct k as [|[|[|[|k]]]]; [| | | |lia]; cbn [nth] in He.
  - rewrite He. cbn. destruct (answer b PwStop); split; reflexivity.
  - pose proof (Hpre 0%nat ltac:(lia)) as P0. cbn [nth] in P0.
    rewrite P0, He. cbn. destruct (answer b PwStop); split; reflexivity.
  - pose proof (Hpre 0%nat ltac:(lia)) as P0. pose proof (Hpre 1%nat ltac:(lia)) as P1.
    cbn [nth] in P0, P1. rewrite P0, P1, He. cbn.
    destruct (answer b PwStop); split; reflexivity.
  - pose proof (Hpre 0%nat ltac:(lia)) as P0. pose proof (Hpre 1%nat ltac:(lia)) as P1.
    pose proof (Hpre 2%nat ltac:(lia)) as P2. cbn [nth] in P0, P1, P2.
    rewrite P0, P1, P2, He. cbn. destruct (answer b PwStop); split; reflexivity.
Qed.

(** A fetch that returns gives [page.content()], read after the whole
    sequence: the navigation, the banner clicks (each one completed or
    timed out), the [networkidle] wait and the grace delay, and followed
    by both closing calls; every call other than the clicks completed. *)
Theorem playwright_success b url h :
  snd (fetch_with_playwright b url []) = inl h ->
  h = page_html b
  /\ (exists clicks,
        fst (fetch_with_playwright b url [])
        = [PwStart; Launch; NewContext; InitScript; NewPage; Goto url] ++ clicks
          ++ [WaitIdle; Sleep; Content; CloseCtx; CloseBrowser; PwStop]
        /\ Forall (benign_click b) clicks)
  /\ Forall (fun o => answer b o = None)
       [PwStart; Launch; NewContext; InitScript; NewPage; Goto url;
        WaitIdle; Sleep; Content; CloseCtx; CloseBrowser; PwStop].
Proof.
  unfold fetch_with_playwright, pw_finally, pw_bind, pw_ret, pw_call.
  destruct (answer b PwStart) eqn:E0; [cbn; intro; discriminate|].
  destruct (answer b Launch) eqn:E1;
    [cbn; destruct (answer b PwStop); cbn; discriminate|].
  destruct (answer b NewContext) eqn:E2;
    [cbn; destruct (answer b PwStop); cbn; discriminate|].
  destruct (answer b InitScript) eqn:E3;
    [cbn; destruct (answer b PwStop); cbn; discriminate|].
  destruct (answer b NewPage) eqn:E4;
    [cbn; destruct (answer b PwStop); cbn; discriminate|].
  cbn -[click_first].
  destruct (answer b (Goto url)) eqn:E5;
    [cbn; destruct (answer b CloseCtx); [|destruct (answer b CloseBrowser)];
     destruct (answer b PwStop); cbn; discriminate|].
  cbn -[click_first].
  destruct (click_first b consent_selectors 2000 _) as [tr1 [u1|x1]] eqn:C1;
    [|cbn; destruct (answer b CloseCtx); [|destruct (answer b CloseBrowser)];
      destruct (answer b PwStop); cbn; discriminate].
  destruct (click_first b close_selectors 1500 tr1) as [tr2 [u2|x2]] eqn:C2;
    [|cbn; destruct (answer b CloseCtx); [|destruct (answer b CloseBrowser)];
      destruct (answer b PwStop); cbn; discriminate].
  destruct (answer b WaitIdle) eqn:E6;
    [cbn; destruct (answer b CloseCtx); [|destruct (answer b CloseBrowser)];
     destruct (answer b PwStop); cbn; discriminate|].
  destruct (answer b Sleep) eqn:E7;
    [cbn; destruct (answer b CloseCtx); [|destruct (answer b CloseBrowser)];
     destruct (answer b PwStop); cbn; discriminate|].
  destruct (answer b Content) eqn:E8;
    [cbn; destruct (answer b CloseCtx); [|destruct (answer b CloseBrowser)];
     destruct (answer b PwStop); cbn; discriminate|].
  destruct (answer b CloseCtx) eqn:E9;
    [cbn; destruct (answer b PwStop); cbn; discriminate|].
  destruct (answer b CloseBrowser) eqn:E10;
    [cbn; destruct (answer b PwStop); cbn; discriminate|].
  destruct (answer b PwStop) eqn:E11; [cbn; discriminate|].
  cbn. intro Hh. inversion Hh; subst h. split; [reflexivity|].
  destruct (click_first_ok _ _ _ _ _ _ C1) as [cs1 [-> F1]].
  destruct (click_first_ok _ _ _ _ _ _ C2) as [cs2 [-> F2]].
  split.
  - exists (cs1 ++ cs2). split; [|now apply Forall_app].
    simpl. now rewrite <- !app_assoc.
  - repeat constructor; assumption.
Qed.

(** The banner loops: the clicks tried are the selectors in order, every
    one but the last timed out, and the loop stops at the first click that
    completes; a click raising anything but [PWTimeout] ends the loop with
    that exception; if every click times out, the loop ends normally. *)
Theorem click_first_stops_at_first_completed b sels t tr0 :
  let '(tr, r) := click_first b sels t tr0 in
  (tr = tr0 ++ map (fun s => Click s t) sels
   /\ Forall (fun s => answer b (Click s t) = Some PWTimeout) sels /\ r = inl tt)
  \/ exists pre s post,
       sels = pre ++ s :: post
       /\ tr = tr0 ++ map (fun s => Click s t) (pre ++ [s])
       /\ Forall (fun s => answer b (Click s t) = Some PWTimeout) pre
       /\ ((answer b (Click s t) = None /\ r = inl tt)
           \/ exists e, answer b (Click s t) = Some (PWError e) /\ r = inr (PWError e)).
Proof.
  revert tr0. induction sels as [|s rest IH]; intro tr0.
  - left. simpl. rewrite app_nil_r. auto.
  - cbn [click_first]. unfold pw_call.
    destruct (answer b (Click s t)) as [[|e]|] eqn:E; cbn iota beta.
    + specialize (IH (tr0 ++ [Click s t])).
      destruct (click_first b rest t (tr0 ++ [Click s t])) as [tr r].
      destruct IH as [[-> [HF ->]] | [pre [s' [post [-> [-> [HF Hl]]]]]]].
      * left. split; [simpl; now rewrite <- app_assoc|].
        split; [now constructor|reflexivity].
      * right. exists (s :: pre), s', post. split; [reflexivity|].
        split; [simpl; now rewrite <- app_assoc|]. split; [now constructor|exact Hl].
    + right. exists [], s, rest. do 3 (split; [reflexivity || constructor|]).
      right. eauto.
    + right. exists [], s, rest. do 3 (split; [reflexivity || constructor|]).
      left. auto.
Qed.

End BrowserProofs.

Lemma playwright_closes_after_page_witness :
  exists body,
    fst (fetch_with_playwright sample_browser (str "https://www.carrefour.fr/promotions") [])
    = [PwStart; Launch; NewContext; InitScript; NewPage] ++ body
      ++ [CloseCtx; CloseBrowser; PwStop]
    /\ Forall not_closing body.
Proof.
  apply (playwright_closes_after_page sample_browser (str "https://www.carrefour.fr/promotions"));
    reflexivity.
Defined.

Lemma playwright_setup_failure_witness :
  fst (fetch_with_playwright sample_browser_no_page (str "https://www.carrefour.fr/promotions") [])
    = [PwStart; Launch; NewContext; InitScript; NewPage; PwStop]
  /\ snd (fetch_with_playwright sample_browser_no_page
            (str "https://www.carrefour.fr/promotions") []) = inr (PWError tt).
Proof.
  apply (playwright_setup_failure sample_browser_no_page
           (str "https://www.carrefour.fr/promotions") 3 (PWError tt)).
  - reflexivity.
  - lia.
  - intros j Hj. destruct j as [|[|[|j]]]; [reflexivity|reflexivity|reflexivity|lia].
  - reflexivity.
Defined.

Lemma playwright_success_witness :
  snd (fetch_with_playwright sample_browser (str "https://www.carrefour.fr/promotions") [])
    = inl (str "<li>Soldes -60%</li>")
  /\ str "<li>Soldes -60%</li>" = page_html sample_browser.
Proof.
  split; [reflexivity|].
  apply (playwright_success sample_browser (str "https://www.carrefour.fr/promotions")
           (str "<li>Soldes -60%</li>")).
  reflexivity.
Defined.

(** ** The alert header's percentage list *)

Lemma dec_aux_nonempty f n acc : exists c r, dec_aux f n acc = c :: r.
Proof.
  revert n acc. induction f as [|f IH]; intros n acc; [eexists; eexists; reflexivity|].
  cbn [dec_aux]. destruct (n <? 10); [eexists; eexists; reflexivity|apply IH].
Qed.

Lemma dec_aux_length f n acc k :
  (1 <= k)%nat -> 0 <= n < 10 ^ Z.of_nat k ->
  (List.length (dec_aux f n acc) <= k + List.length acc)%nat.
Proof.
  revert n acc k. induction f as [|f IH]; intros n acc k Hk Hn; [simpl; lia|].
  cbn [dec_aux]. destruct (Z.ltb_spec n 10); [simpl; lia|].
  destruct k as [|[|k]]; [lia|simpl in Hn; lia|].
  assert (Hq : 0 <= n / 10 < 10 ^ Z.of_nat (S k)).
  { split; [apply Z.div_pos; lia|]. apply Z.div_lt_upper_bound; [lia|].
    rewrite (Nat2Z.inj_succ (S k)), Z.pow_succ_r in Hn by lia. lia. }
  specialize (IH (n / 10) ((48 + n mod 10) :: acc) (S k) ltac:(lia) Hq).
  simpl in IH |- *. lia.
Qed.

Lemma dec_length n : 0 <= n <= 999 -> (1 <= List.length (dec n) <= 3)%nat.
Proof.
  intro Hn. unfold dec. split.
  - destruct (dec_aux_nonempty (Z.to_nat (Z.log2 n)) n []) as [c [r ->]]. simpl. lia.
  - pose proof (dec_aux_length (Z.to_nat (Z.log2 n)) n [] 3 ltac:(lia)) as H.
    simpl in H. apply H. cbn. lia.
Qed.

Lemma py_int_dec m : 0 <= m -> py_int (replace_minus (dec m)) = Some m.
Proof.
  intro Hm. pose proof (dec_digits m Hm) as HF.
  rewrite replace_minus_id.
  2:{ intros c Hc E. rewrite Forall_forall in HF. specialize (HF c Hc). subst. discriminate. }
  pose proof (dec_value m Hm) as Hv. unfold dec in *.
  destruct (dec_aux_nonempty (Z.to_nat (Z.log2 m)) m []) as [c [r E]]. rewrite E in *.
  inversion HF; subst. cbn [py_int].
  destruct (Z.eqb_spec c minus) as [->|_]; [discriminate|exact Hv].
Qed.

Lemma digit_prefix_digits n ds :
  Forall (fun c => is_digit c = true) ds -> (List.length ds <= n)%nat ->
  digit_prefix n (ds ++ [percent]) = List.length ds.
Proof.
  intro HF. revert n. induction HF as [|c ds Hc HF IH]; intros n Hn.
  - destruct n; reflexivity.
  - destruct n as [|n]; [simpl in Hn; lia|]. simpl. rewrite Hc.
    rewrite IH by (simpl in Hn; lia). reflexivity.
Qed.

Lemma finditer_skip_all l : finditer (List.length l) l = [].
Proof. induction l as [|c l IH]; [reflexivity|exact IH]. Qed.

Lemma finditer_token ds :
  Forall (fun c => is_digit c = true) ds -> (1 <= List.length ds <= 3)%nat ->
  finditer 0 (ds ++ [percent]) = [ds].
Proof.
  intros HF Hl. destruct ds as [|c r]; [simpl in Hl; lia|].
  assert (Hc : is_digit c = true) by (inversion HF; assumption).
  assert (Hmb : match_body ((c :: r) ++ [percent]) = Some (c :: r, S (S (List.length r)))).
  { unfold match_body. rewrite digit_prefix_digits by (assumption || lia).
    change (List.length (c :: r)) with (S (List.length r)). cbn [try_digits].
    change (skipn (S (List.length r)) ((c :: r) ++ [percent]))
      with (skipn (List.length r) (r ++ [percent])).
    rewrite skipn_app, skipn_all, Nat.sub_diag. cbn [skipn app].
    change (pct_tail [percent]) with (Some 1%nat). cbv iota.
    cbn [firstn]. rewrite firstn_app, firstn_all, Nat.sub_diag, app_nil_r.
    do 2 f_equal. lia. }
  change ((c :: r) ++ [percent]) with (c :: (r ++ [percent])). cbn [finditer].
  unfold match_at.
  destruct (Z.eqb_spec c minus) as [->|_]; [discriminate|].
  change (c :: r ++ [percent]) with ((c :: r) ++ [percent]). rewrite Hmb.
  replace (S (S (List.length r)) - 1)%nat with (List.length (r ++ [percent]))
    by (rewrite length_app; simpl; lia).
  now rewrite finditer_skip_all.
Qed.

Lemma pct_list_rescan hs :
  (forall v, In v (firstn 5 hs) -> Z.abs v <= 999) ->
  found_values (pct_list hs) = map Z.abs (firstn 5 hs).
Proof.
  unfold found_values, pct_list. change (str ", ") with [44; space].
  rewrite finditer_join by (repeat split; discriminate). rewrite collect_flat_map.
  induction (firstn 5 hs) as [|v l IH]; intro Hb; [reflexivity|].
  cbn [map flat_map]. rewrite IH by (intros x Hx; apply Hb; now right).
  rewrite py_str_int_nonneg by lia.
  assert (Hv : 0 <= Z.abs v <= 999) by (split; [lia|apply Hb; now left]).
  rewrite finditer_token by (apply dec_digits || apply dec_length; lia).
  cbn [collect]. rewrite py_int_dec by lia. reflexivity.
Qed.

(** Read back with the program's own pattern, the percentage list of the
    alert header gives exactly the magnitudes of the first five hits, in
    order: every hit has at most three digits, so [str(abs(v))+'%'] is one
    whole token, and the ", " joiner splits no token. *)
Theorem alert_percentages_round_trip (sel : node -> bool) (d : document) :
  found_values (pct_list (hits (extract_promos_with sel d)))
  = map Z.abs (firstn 5 (hits (extract_promos_with sel d))).
Proof.
  apply pct_list_rescan. intros v Hv. apply in_firstn_in in Hv. revert Hv.
  cbn [extract_promos_with hits]. rewrite sorted_set_desc_In, filter_In.
  intros [Hin _].
  destruct (collect_tokens (finditer 0 (full_text d))) as [_ HB];
    [intros g Hg; exact (finditer_shape _ _ _ Hg)|].
  exact (HB v Hin).
Qed.

(** ** Notifications *)

Lemma job_once_single {exn} (exn_str : exn -> text) skip (w : world exn) parse now :
  exists m, snd (job_once exn_str skip w parse now) = [Send m].
Proof.
  unfold job_once. destruct (fetch_first_ok skip USER_AGENT w PROMO_URLS) as [tr [[u html]|f]].
  - destruct (hits (extract_promos (parse html))); eexists; reflexivity.
  - eexists; reflexivity.
Qed.

Lemma job_once_setup_le1 {exn} (w : world exn) parse now :
  (List.length (job_once_setup w parse now) <= 1)%nat.
Proof.
  unfold job_once_setup.
  destruct (negb (allowed_by_robots_setup (robots_at w PROMO_URL) USER_AGENT_setup PROMO_URL));
    [simpl; lia|].
  destruct (requests_at w PROMO_URL) as [html|e]; [|simpl; lia].
  destruct (hits (extract_promos_setup (parse html))); simpl; lia.
Qed.

Lemma sent_posts_spec token chat l :
  (List.length (sent_posts token chat l) <= List.length l)%nat
  /\ forall c, In c (sent_posts token chat l) ->
       exists url p, c = Post url p /\ chat_id p = chat.
Proof.
  induction l as [|[m] l [IHl IHc]]; [split; [simpl; lia|intros c []]|].
  unfold sent_posts in *. cbn [flat_map]. rewrite length_app. split.
  - assert (List.length (send_telegram token chat m) <= 1)%nat
      by (unfold send_telegram; destruct (negb (nonempty token && nonempty chat)); simpl; lia).
    simpl. lia.
  - intros c Hc. apply in_app_iff in Hc as [Hc|Hc]; [|exact (IHc c Hc)].
    unfold send_telegram in Hc. destruct (negb (nonempty token && nonempty chat));
      [destruct Hc|destruct Hc as [<-|[]]; do 2 eexists; split; reflexivity].
Qed.

Lemma sent_posts_one token chat m :
  sent_posts token chat [Send m]
  = if nonempty token && nonempty chat
    then [Post (str "https://api.telegram.org/bot" ++ token ++ str "/sendMessage")
               {| chat_id := chat; msg_text := m; disable_web_page_preview := true |}]
    else [].
Proof.
  unfold sent_posts. cbn [flat_map]. rewrite app_nil_r. unfold send_telegram.
  destruct (nonempty token && nonempty chat); reflexivity.
Qed.

(** A run of the watcher's [job_once] that returns hands exactly one
    message to [send_telegram], which posts it once to the bot API of the
    token, for [TELEGRAM_CHAT_ID], with link previews disabled (nothing is
    posted when either setting is empty). A run that raises sends nothing,
    and it raises only with the parser's exception on the page that was
    fetched. *)
Theorem job_once_posts {exn} (exn_str : exn -> text) skip (w : world exn)
  (parse : text -> document + exn) now (token chat : text) :
  let '(_, sinks, raised) := job_once_exn exn_str skip w parse now in
  match raised with
  | None =>
      exists m, sinks = [Send m]
        /\ sent_posts token chat sinks
           = if nonempty token && nonempty chat
             then [Post (str "https://api.telegram.org/bot" ++ token ++ str "/sendMessage")
                        {| chat_id := chat; msg_text := m; disable_web_page_preview := true |}]
             else []
  | Some e =>
      sinks = []
      /\ exists u html, snd (fetch_first_ok skip USER_AGENT w PROMO_URLS) = inl (u, html)
                        /\ parse html = inr e
  end.
Proof.
  unfold job_once_exn, extract_html.
  destruct (fetch_first_ok skip USER_AGENT w PROMO_URLS) as [tr [[u html]|f]].
  - destruct (parse html) as [d|e] eqn:Ep.
    + destruct (hits (extract_promos_with is_card d));
        (eexists; split; [reflexivity|apply sent_posts_one]).
    + split; [reflexivity|]. exists u, html. split; [reflexivity|exact Ep].
  - eexists; split; [reflexivity|apply sent_posts_one].
Qed.

(** The setup-script variant's [job_once] sends at most one message. It
    sends none exactly when the robots check refuses [PROMO_URL], the
    download raises, or the parser raises on the downloaded page; only in
    the last case does [job_once] itself raise, with the parser's
    exception. *)
Theorem job_once_setup_silence {exn} (w : world exn) (parse : text -> document + exn) now :
  (List.length (fst (job_once_setup_exn w parse now)) <= 1)%nat
  /\ (fst (job_once_setup_exn w parse now) = []
      <-> allowed_by_robots_setup (robots_at w PROMO_URL) USER_AGENT_setup PROMO_URL = false
          \/ (exists e, requests_at w PROMO_URL = KO e)
          \/ (exists html e, requests_at w PROMO_URL = OK html /\ parse html = inr e))
  /\ (forall e, snd (job_once_setup_exn w parse now) = Some e ->
        allowed_by_robots_setup (robots_at w PROMO_URL) USER_AGENT_setup PROMO_URL = true
        /\ exists html, requests_at w PROMO_URL = OK html /\ parse html = inr e).
Proof.
  unfold job_once_setup_exn, extract_html.
  destruct (allowed_by_robots_setup (robots_at w PROMO_URL) USER_AGENT_setup PROMO_URL) eqn:Ea;
    cbn [negb].
  - destruct (requests_at w PROMO_URL) as [html|e] eqn:Er.
    + destruct (parse html) as [d|e] eqn:Ep.
      * destruct (hits (extract_promos_with is_card_setup d)); cbn [fst snd List.length];
          (split; [lia|split; [split; [discriminate|]|intros e' H; discriminate]]);
          intros [H|[[e' H]|[h [e' [H1 H2]]]]]; congruence.
      * cbn [fst snd List.length]. split; [lia|].
        split; [split; [intros _; right; right; eauto|reflexivity]|].
        intros e' H. injection H as <-. eauto.
    + cbn [fst snd List.length]. split; [lia|].
      split; [split; [intros _; right; left; eauto|reflexivity]|intros e' H; discriminate].
  - cbn [fst snd List.length]. split; [lia|].
    split; [split; [intros _; left; reflexivity|reflexivity]|intros e H; discriminate].
Qed.

(** [/now] (both variants) first answers the chat the command came from;
    the scan runs only if that answer was sent, and its message (at most
    one) is posted for [TELEGRAM_CHAT_ID], not for the requesting chat. *)
Theorem telegram_now_routing {exn} (exn_str : exn -> text) skip (w : world exn) parse now
  (token chat : text) (ec : Z) (ack_ok : bool) :
  (exists rest,
     telegram_now exn_str skip w parse now token chat ec ack_ok = BotSend ec ack_now :: rest
     /\ (ack_ok = false -> rest = []) /\ (List.length rest <= 1)%nat
     /\ forall c, In c rest -> exists url p, c = BotApi (Post url p) /\ chat_id p = chat)
  /\ (exists rest,
     telegram_now_setup w parse now token chat ec ack_ok = BotSend ec ack_now_setup :: rest
     /\ (ack_ok = false -> rest = []) /\ (List.length rest <= 1)%nat
     /\ forall c, In c rest -> exists url p, c = BotApi (Post url p) /\ chat_id p = chat).
Proof.
  unfold telegram_now, telegram_now_setup.
  split; (eexists; split; [reflexivity|]); (destruct ack_ok;
    [split; [discriminate|]|split; [reflexivity|split; [simpl; lia|intros c []]]]).
  - destruct (job_once_single exn_str skip w parse now) as [m Hm]. rewrite Hm.
    destruct (sent_posts_spec token chat [Send m]) as [HL HC].
    split; [rewrite length_map; change (List.length [Send m]) with 1%nat in HL; lia|].
    intros c Hc. apply in_map_iff in Hc as [a [<- Ha]].
    destruct (HC a Ha) as [url [p [-> Hp]]]. eauto.
  - pose proof (job_once_setup_le1 w parse now) as Hle.
    destruct (sent_posts_spec token chat (job_once_setup w parse now)) as [HL HC].
    split; [rewrite length_map; lia|].
    intros c Hc. apply in_map_iff in Hc as [a [<- Ha]].
    destruct (HC a Ha) as [url [p [-> Hp]]]. eauto.
Qed.


(** ** [extract_promos(html)], parsing included *)

(** C2 (amended). [extract_promos(html)] raises only when the parser
    raises; on the parsed document the rest never raises: [int] accepts
    every match (one value per match), so the [except ValueError] is never
    taken. When the parse has no text, such as the parse of the empty
    string, the hit list and the snippet list are both empty. *)
Theorem extract_no_text_empty {exn} (sel : node -> bool) (parse : text -> document + exn)
  (html : text) :
  (forall e, extract_html sel parse html = inr e -> parse html = inr e)
  /\ (forall d, parse html = inl d ->
        extract_html sel parse html = inl (extract_promos_with sel d)
        /\ List.length (found_values (full_text d)) = List.length (finditer 0 (full_text d))
        /\ (doc_strings d = [] ->
            extract_html sel parse html = inl {| hits := []; cards := [] |})).
Proof.
  unfold extract_html. split.
  - intro e. destruct (parse html); [discriminate|]. intro H. injection H as ->. reflexivity.
  - intros d Hp. rewrite Hp. split; [reflexivity|]. split.
    + apply collect_tokens. intros g Hg. exact (finditer_shape _ _ _ Hg).
    + intro Hd. now rewrite extract_empty_of_no_text.
Qed.

Lemma extract_no_text_empty_witness :
  extract_html (exn := unit) is_card (fun _ => inl []) [] = inl {| hits := []; cards := [] |}.
Proof.
  destruct (proj2 (extract_no_text_empty (exn := unit) is_card (fun _ => inl []) []) [] eq_refl)
    as [_ [_ H]].
  exact (H eq_refl).
Defined.
